(** * Citation-record reconciliation pipeline

    A shallow embedding of [scripts/collect_citations.py] (Google Scholar
    scrape, Crossref enrichment, self-citation filter) and of the parts of
    [scripts/openalex_citations.py] that load the raw store and filter
    self-citations.

    Modelling conventions.
    - A Python [str] is a list of Unicode code points ([text]); the literal
      [T "abc"] is the text of an ASCII literal.
    - A Python [float] is the rational number it denotes exactly.  The
      scripts never do arithmetic on floats, they only compare them, and
      comparison of (finite) floats is comparison of the rationals.
    - What the scripts take from the Python runtime (the [\s] and [\w]
      classes of [re], [str.lower], [difflib.SequenceMatcher.ratio]) is an
      interface, [PyRuntime]; everything is proved for every implementation
      of it.  [Latin1] is an implementation that agrees with CPython on the
      code points below 256 and is used to run examples.
    - The Crossref service is an oracle of type [Session]; the queries sent
      to it are logged in the [World] next to the in-memory cache.
    - A file is [Missing], [Unreadable] (reading or parsing it raises an
      exception other than [JSONDecodeError]), [Malformed] ([json.loads]
      raises [JSONDecodeError]) or [Holds] a parsed document.
    - [time.sleep] and [print] have no effect on any value and are left out. *)

From Stdlib Require Import QArith.
From stdpp Require Import base option list gmap strings.
From stdpp Require Import sorting.

Local Open Scope Z_scope.
Local Open Scope N_scope.
Local Open Scope nat_scope.
Local Open Scope list_scope.
Local Open Scope stdpp_scope.

(** ** Text *)

Definition char := N.
Definition text := list N.

(** The text of an ASCII string literal. *)
Definition T (s : string) : text :=
  (λ a, Ascii.N_of_ascii a) <$> String.list_ascii_of_string s.

(** The sentinel [信息缺失] ("information missing"). *)
Definition MISSING : text := [20449; 24687; 32570; 22833]%N.

(** What the scripts use of the Python runtime. *)
Class PyRuntime := {
  (** the class [\s] of [re] on [str] patterns, which [str.strip] strips *)
  isspace : char → bool;
  (** the class [\w] of [re] on [str] patterns *)
  isword : char → bool;
  (** [str.lower] *)
  lower : text → text;
  (** [difflib.SequenceMatcher(None, a, b).ratio()] *)
  ratio : text → text → Q;
  (** the lower case of the empty [str] is the empty [str] *)
  lower_nil : lower [] = [];
}.

Module Import Normalize.
Section Normalize.
Context `{PyRuntime}.

(** [text.replace] of the no-break space U+00A0 by a space *)
Definition replace_nbsp (s : text) : text :=
  (λ c, if (c =? 160)%N then 32%N else c) <$> s.

(** [re.sub] of [\s+] by one space: every maximal run of whitespace becomes
    one space.  [in_run] tells that the previous character was whitespace. *)
Fixpoint sub_ws_runs (in_run : bool) (s : text) : text :=
  match s with
  | [] => []
  | c :: s' =>
      if isspace c
      then (if in_run then sub_ws_runs true s' else 32%N :: sub_ws_runs true s')
      else c :: sub_ws_runs false s'
  end.

Fixpoint lstrip (s : text) : text :=
  match s with
  | [] => []
  | c :: s' => if isspace c then lstrip s' else s
  end.

(** [str.strip()] *)
Definition strip (s : text) : text := rev (lstrip (rev (lstrip s))).

Definition normalize_whitespace (s : text) : text :=
  strip (sub_ws_runs false (replace_nbsp s)).

(** [re.sub] of the class [[^\w\s]] by the empty string *)
Definition delete_punct (s : text) : text :=
  filter (λ c, isword c || isspace c) s.

(** [re.sub] of the class [[^\w\s]] by one space *)
Definition blank_punct (s : text) : text :=
  (λ c, if isword c || isspace c then c else 32%N) <$> s.

Definition normalize_author_name (name : text) : text :=
  let name := lower name in
  let name := delete_punct name in
  normalize_whitespace name.

Definition normalize_title (title : text) : text :=
  let cleaned := blank_punct (lower title) in
  normalize_whitespace cleaned.
End Normalize.
End Normalize.

(** ** The runtime on Latin-1 *)

Module Latin1.
Definition between (lo hi c : N) : bool := ((lo <=? c) && (c <=? hi))%N.

Definition l1_isspace (c : char) : bool :=
  between 9 13 c || between 28 32 c || (c =? 133)%N || (c =? 160)%N.

Definition l1_isword (c : char) : bool :=
  between 48 57 c || between 65 90 c || (c =? 95)%N || between 97 122 c
  || (c =? 170)%N || between 178 179 c || (c =? 181)%N || between 185 186 c
  || between 188 190 c || between 192 214 c || between 216 246 c
  || between 248 255 c.

Definition l1_lower_char (c : char) : char :=
  if between 65 90 c || between 192 214 c || between 216 222 c
  then (c + 32)%N else c.

(** A score table for examples: 1 on equal texts, else 0. *)
Definition l1_ratio (a b : text) : Q := if decide (a = b) then 1%Q else 0%Q.

Definition l1_lower (s : text) : text := l1_lower_char <$> s.

Definition runtime : PyRuntime :=
  {| isspace := l1_isspace; isword := l1_isword;
     lower := l1_lower; ratio := l1_ratio; lower_nil := eq_refl |}.
End Latin1.

(** ** Python idioms *)

(** Truth value of a list or [str]: non-empty. *)
Definition truthy {A} (l : list A) : bool :=
  match l with [] => false | _ :: _ => true end.

(** [x or default] on an optional list ([dict.get] gives [None] for a
    missing key). *)
Definition or_else {A} (x : option (list A)) (dflt : list A) : list A :=
  match x with Some (a :: l) => a :: l | _ => dflt end.

(** [sep.join(parts)] *)
Fixpoint join (sep : text) (parts : list text) : text :=
  match parts with
  | [] => []
  | [p] => p
  | p :: rest => p ++ sep ++ join sep rest
  end.

(** [a < b] on floats *)
Definition Qltb (a b : Q) : bool := negb (Qle_bool b a).

(** The float written [0.6]: the double nearest to 6/10, which is
    5404319552844595 / 2^53. *)
Definition float_0_6 : Q := 5404319552844595 # 9007199254740992.

(** Exceptions that reach a caller. *)
Inductive Exn :=
| ReadError   (** [Path.read_text] or [json.loads] raised an exception other
                  than [JSONDecodeError] *)
| TypeError.

Inductive Result (A : Type) :=
| Return (a : A)
| Raise (e : Exn).
Arguments Return {A} a.
Arguments Raise {A} e.

(** The state of a file, as far as [exists], [read_text] and [json.loads]
    tell it apart.
    - [Missing]: [exists] is false.
    - [Unreadable]: [read_text] or [json.loads] raises an exception other
      than [JSONDecodeError]: [OSError] (no permission, a directory),
      [UnicodeDecodeError] (bytes that are not UTF-8), [RecursionError]
      (nesting too deep for the parser), [ValueError] (a number with more
      digits than [int] converts).  No loader catches these.
    - [Malformed]: [json.loads] raises [JSONDecodeError].
    - [Holds doc]: [json.loads] returns [doc]. *)
Inductive File (A : Type) :=
| Missing
| Unreadable
| Malformed
| Holds (doc : A).
Arguments Missing {A}.
Arguments Unreadable {A}.
Arguments Malformed {A}.
Arguments Holds {A} doc.

(** ** Data structures of [collect_citations.py] *)

Record ScholarRecord := {
  title : text;
  url : option text;
  authors_raw : text;
  snippet : text;
  raw_meta : text;
  year : option Z;
  cluster_id : option text;
  page_index : Z;
  authors_list : list text;
  authors_truncated : bool;
}.

(** [EnrichedRecord(ScholarRecord)]: the inherited fields are [scholar]. *)
Record EnrichedRecord := {
  scholar : ScholarRecord;
  first_author : option text;
  first_author_affiliations : list text;
  doi : option text;
  crossref_year : option Z;
  journal : option text;
  crossref_score : option Q;
  crossref_status : text;
  authors_crossref : list text;
  authors_crossref_affiliations : list (list text);
  final_authors : list text;
  final_author_affiliations : list (list text);
  author_source : text;
}.

(** A value of the Crossref cache: a dict read with [info.get(key)], its
    values at the types [query_crossref] writes them with; a field is [None]
    when the key is missing. *)
Module Info.
Record t := {
  status : option text;
  error : option text;
  score : option Q;
  doi : option text;
  journal : option text;
  year : option Z;
  first_author : option text;
  first_affiliations : option (list text);
  authors : option (list text);
  authors_affiliations : option (list (list text));
}.

Definition empty : t :=
  {| status := None; error := None; score := None; doi := None;
     journal := None; year := None; first_author := None;
     first_affiliations := None; authors := None;
     authors_affiliations := None |}.
End Info.

(** A work of the Crossref answer ([message.items]).  A string field is [[]]
    when its key is missing; [affiliation] holds the affiliations' [name]s. *)
Module Work.
Record author := {
  given : text;
  family : text;
  name : text;
  affiliation : list text;
}.

Record t := {
  title : list text;
  authors : list author;
  issued : list (list (option Z));
  DOI : option text;
  container_title : list text;
}.
End Work.

(** What [session.get(...)], [raise_for_status] and [response.json()] give. *)
Inductive Response :=
| Failure (exc : text)
| Items (items : list Work.t).

(** The Crossref service: its answer to a query may depend on the queries
    sent before. *)
Definition Session := list text → text → Response.

(** The in-memory cache and the queries sent so far. *)
Record World := {
  cache : gmap text Info.t;
  log : list text;
}.

(** A parsed cache file: a JSON object or something else. *)
Inductive CacheDoc :=
| Object (entries : gmap text Info.t)
| NotObject.

(** A parsed raw-record file.  Iterating a list gives its items (for an
    object or a string, keys or characters); an item is [Some r] when the
    [ScholarRecord] constructor builds [r] from it and [None] when it raises
    [TypeError].  A number, [true], [false] or [null] cannot be iterated. *)
Inductive RecordsDoc :=
| Iterable (items : list (option ScholarRecord))
| NotIterable.

(** ** [collect_citations.py] *)

Definition ORIGINAL_AUTHORS : gset text :=
  {[ T "peter c ma"; T "pc ma"; T "p c ma"; T "yu lv"; T "y lv";
     T "matthias ihme"; T "m ihme" ]}.

Section CollectCitations.
Context `{PyRuntime}.

Definition load_cached_records (file : File RecordsDoc)
  : Result (list ScholarRecord) :=
  match file with
  | Missing => Return []
  | Unreadable => Raise ReadError
  | Malformed => Return []
  | Holds NotIterable => Raise TypeError
  | Holds (Iterable data) =>
      (* malformed entries are skipped *)
      Return (omap id data)
  end.

Definition sequence_score (a b : text) : Q := ratio a b.

Definition record_key (record : ScholarRecord) : text :=
  match cluster_id record with
  | Some (c :: cs) => T "cluster:" ++ (c :: cs)
  | _ => T "title:" ++ normalize_title (title record)
  end.

Definition load_crossref_cache (file : File CacheDoc)
  : Result (gmap text Info.t) :=
  match file with
  | Missing => Return ∅
  | Unreadable => Raise ReadError
  | Malformed => Return ∅
  | Holds (Object data) => Return data
  | Holds NotObject => Return ∅
  end.

Definition save_crossref_cache (cache : gmap text Info.t) : File CacheDoc :=
  Holds (Object cache).

(** The score of a returned work; [None] when the work has no title and the
    loop of [query_crossref] goes on to the next one. *)
Definition candidate_score (norm_title : text) (item : Work.t) : option Q :=
  match Work.title item with
  | [] => None
  | item_title :: _ =>
      Some (sequence_score (normalize_title item_title) norm_title)
  end.

(** One step of the loop of [query_crossref] over the returned works. *)
Definition best_step (norm_title : text) (best : option Work.t * Q)
    (item : Work.t) : option Work.t * Q :=
  match candidate_score norm_title item with
  | None => best
  | Some score => if Qltb best.2 score then (Some item, score) else best
  end.

Definition best_match (norm_title : text) (items : list Work.t)
  : option Work.t * Q :=
  foldl (best_step norm_title) (None, 0%Q) items.

Definition author_name (author : Work.author) : text :=
  let name_parts :=
    filter (λ part, truthy part) [Work.given author; Work.family author] in
  let name :=
    if truthy name_parts
    then normalize_whitespace (join (T " ") name_parts)
    else normalize_whitespace (Work.name author) in
  if truthy name then name else MISSING.

Definition aff_list (author : Work.author) : list text :=
  normalize_whitespace <$> filter (λ aff, truthy aff) (Work.affiliation author).

(** The entry built from the accepted work. *)
Definition ok_entry (best_item : Work.t) (best_score : Q) : Info.t :=
  let authors := Work.authors best_item in
  let authors_full := author_name <$> authors in
  let authors_affiliations := aff_list <$> authors in
  let first_author :=
    match authors_full with
    | name :: _ => if decide (name = MISSING) then None else Some name
    | [] => None
    end in
  let first_affiliations := default [] (head authors_affiliations) in
  let crossref_year :=
    match Work.issued best_item with
    | (y :: _) :: _ => y
    | _ => None
    end in
  {| Info.status := Some (T "ok");
     Info.error := None;
     Info.score := Some best_score;
     Info.doi := Work.DOI best_item;
     Info.journal := head (Work.container_title best_item);
     Info.year := crossref_year;
     Info.first_author := first_author;
     Info.first_affiliations := Some first_affiliations;
     Info.authors := Some authors_full;
     Info.authors_affiliations := Some authors_affiliations |}.

Definition error_entry (exc : text) : Info.t :=
  {| Info.status := Some (T "error"); Info.error := Some exc;
     Info.score := None; Info.doi := None; Info.journal := None;
     Info.year := None; Info.first_author := None;
     Info.first_affiliations := None; Info.authors := None;
     Info.authors_affiliations := None |}.

Definition no_match_entry (best_score : Q) : Info.t :=
  {| Info.status := Some (T "no_match"); Info.error := None;
     Info.score := Some best_score; Info.doi := None; Info.journal := None;
     Info.year := None; Info.first_author := None;
     Info.first_affiliations := None; Info.authors := None;
     Info.authors_affiliations := None |}.

(** The entry for the works a live query returned. *)
Definition match_entry (norm_title : text) (items : list Work.t) : Info.t :=
  match best_match norm_title items with
  | (None, best_score) => no_match_entry best_score
  | (Some best_item, best_score) =>
      if Qltb best_score float_0_6
      then no_match_entry best_score
      else ok_entry best_item best_score
  end.

Definition query_crossref (title : text) (session : Session) (w : World)
  : Info.t * World :=
  let norm_title := normalize_title title in
  match cache w !! norm_title with
  | Some info => (info, w)
  | None =>
      let sent := log w ++ [title] in
      let entry :=
        match session (log w) title with
        | Failure exc => error_entry exc
        | Items items => match_entry norm_title items
        end in
      (entry, {| cache := <[norm_title := entry]> (cache w); log := sent |})
  end.

(** [while len(affs) < n: affs.append([])], with the number of rounds bounded
    by [fuel]. *)
Fixpoint pad_loop (fuel n : nat) (affs : list (list text))
  : list (list text) :=
  match fuel with
  | O => affs
  | S fuel' =>
      if length affs <? n then pad_loop fuel' n (affs ++ [[]]) else affs
  end.

(** The alignment of the Crossref affiliations with the Crossref authors. *)
Definition align (crossref_authors : list text)
    (crossref_affiliations : list (list text)) : list (list text) :=
  if truthy crossref_affiliations
     && bool_decide (length crossref_affiliations ≠ length crossref_authors)
  then
    let n := length crossref_authors in
    pad_loop n n (take n crossref_affiliations)
  else crossref_affiliations.

(** The body of the loop of [enrich_records], given the answer [info] of
    [query_crossref]. *)
Definition enrich (record : ScholarRecord) (info : Info.t) : EnrichedRecord :=
  let crossref_authors := or_else (Info.authors info) [] in
  let crossref_affiliations :=
    or_else (Info.authors_affiliations info) ((λ _, []) <$> crossref_authors) in
  let crossref_affiliations := align crossref_authors crossref_affiliations in
  let '(final_authors, final_affiliations, source) :=
    if truthy crossref_authors then
      (crossref_authors, crossref_affiliations, T "crossref")
    else if truthy (authors_list record) then
      (authors_list record, (λ _, []) <$> authors_list record,
       if authors_truncated record then T "scholar_truncated" else T "scholar")
    else ([], [], T "unknown") in
  {| scholar := record;
     first_author := head final_authors;
     first_author_affiliations :=
       if truthy final_authors then default [] (head final_affiliations)
       else [];
     doi := Info.doi info;
     crossref_year :=
       match Info.year info with Some y => Some y | None => year record end;
     journal := Info.journal info;
     crossref_score := Info.score info;
     crossref_status := default (T "unknown") (Info.status info);
     authors_crossref := crossref_authors;
     authors_crossref_affiliations := crossref_affiliations;
     final_authors := final_authors;
     final_author_affiliations := final_affiliations;
     author_source := source |}.

Definition enrich_step (session : Session) (record : ScholarRecord)
    (w : World) : EnrichedRecord * World :=
  let '(info, w') := query_crossref (title record) session w in
  (enrich record info, w').

(** The loop of [enrich_records] from the loaded cache. *)
Fixpoint enrich_loop (session : Session) (records : list ScholarRecord)
    (w : World) : list EnrichedRecord * World :=
  match records with
  | [] => ([], w)
  | record :: rest =>
      let '(enriched_record, w') := enrich_step session record w in
      let '(enriched, w'') := enrich_loop session rest w' in
      (enriched_record :: enriched, w'')
  end.

(** [enrich_records]: the enriched records, the cache file as saved at the
    end, and the queries sent to Crossref. *)
Definition enrich_records (session : Session) (records : list ScholarRecord)
    (file : File CacheDoc)
  : Result (list EnrichedRecord * File CacheDoc * list text) :=
  match load_crossref_cache file with
  | Raise e => Raise e
  | Return cache0 =>
      let '(enriched, w) :=
        enrich_loop session records {| cache := cache0; log := [] |} in
      Return (enriched, save_crossref_cache (cache w), log w)
  end.

(** [record.final_authors or record.authors_list] *)
Definition author_names (record : EnrichedRecord) : list text :=
  if truthy (final_authors record) then final_authors record
  else authors_list (scholar record).

(** The set comprehension over the non-empty names. *)
Definition normalized_names (names : list text) : gset text :=
  list_to_set (normalize_author_name <$> filter (λ a, truthy a) names).

(** The test of the loop of [filter_self_citations]: the intersection with
    the denylist is not empty. *)
Definition is_self_citation (record : EnrichedRecord) : bool :=
  bool_decide (normalized_names (author_names record) ∩ ORIGINAL_AUTHORS ≠ ∅).

Fixpoint filter_self_citations (records : list EnrichedRecord)
  : list EnrichedRecord :=
  match records with
  | [] => []
  | record :: rest =>
      if is_self_citation record then filter_self_citations rest
      else record :: filter_self_citations rest
  end.

(** One of the two deduplicating loops of [main]: [combined_records] and
    [seen_keys] after the records of one scope. *)
Fixpoint dedup_scope (records : list ScholarRecord)
    (st : list ScholarRecord * gset text) : list ScholarRecord * gset text :=
  match records with
  | [] => st
  | record :: rest =>
      let key := record_key record in
      if bool_decide (key ∈ st.2) then dedup_scope rest st
      else dedup_scope rest (st.1 ++ [record], st.2 ∪ {[key]})
  end.

(** [scrape_targets] of [main]: the years, then the fallback scope. *)
Definition scrape_targets (years : list Z) : list (option Z) :=
  (Some <$> years) ++ [None].

(** [main] from the scraped results to [combined_records]: the years in
    order, then the fallback scope [None]. *)
Definition combined_records (years : list Z)
    (scraped_by_year : gmap (option Z) (list ScholarRecord))
  : list ScholarRecord :=
  let st :=
    foldl (λ st year, dedup_scope (default [] (scraped_by_year !! Some year)) st)
          ([], ∅) years in
  let fallback_records := default [] (scraped_by_year !! None) in
  (dedup_scope fallback_records st).1.

(** [main] after the scrape, up to the filtered records. *)
Definition main_pipeline (session : Session) (years : list Z)
    (scraped_by_year : gmap (option Z) (list ScholarRecord))
    (file : File CacheDoc)
  : Result (list EnrichedRecord * File CacheDoc * list text) :=
  match enrich_records session (combined_records years scraped_by_year) file with
  | Raise e => Raise e
  | Return (enriched_records, file', sent) =>
      Return (filter_self_citations enriched_records, file', sent)
  end.

End CollectCitations.

(** ** [openalex_citations.py] *)

(** [normalize_whitespace] and [normalize_author_name] of this script are
    the ones of [collect_citations.py], character for character. *)
Module openalex_citations.

Definition ORIGINAL_AUTHORS : gset text :=
  {[ T "peter c ma"; T "pc ma"; T "p c ma"; T "peter ma"; T "yu lv";
     T "y lv"; T "matthias ihme"; T "m ihme" ]}.

Definition load_json {A} (path : File A) : Result (option A) :=
  match path with
  | Missing => Return None
  | Unreadable => Raise ReadError
  | Malformed => Return None
  | Holds doc => Return (Some doc)
  end.

Definition should_exclude_self_citation `{PyRuntime} (authors : list text)
  : bool :=
  let normalized : gset text :=
    list_to_set (normalize_author_name <$> filter (λ name, truthy name) authors) in
  bool_decide (normalized ∩ ORIGINAL_AUTHORS ≠ ∅).

End openalex_citations.

(** ** Sample data *)

Module Samples.

(** A runtime for the boundary of the threshold: like [Latin1.runtime], but
    two different texts score exactly the float 0.6. *)
Definition boundary_ratio (a b : text) : Q :=
  if decide (a = b) then 1%Q else float_0_6.

Definition boundary_runtime : PyRuntime :=
  {| isspace := Latin1.l1_isspace; isword := Latin1.l1_isword;
     lower := Latin1.l1_lower; ratio := boundary_ratio;
     lower_nil := eq_refl |}.

Definition scraped (title : string) (cid : option string)
    (authors : list string) (truncated : bool) : ScholarRecord :=
  {| title := T title; url := None; authors_raw := T "";
     snippet := T ""; raw_meta := T ""; year := Some 2020%Z;
     cluster_id := T <$> cid; page_index := 0%Z;
     authors_list := T <$> authors; authors_truncated := truncated |}.

Definition test_paper : ScholarRecord :=
  scraped "Test Paper" (Some "c1") ["J Smith"; "K Lee"] false.

(** The same work as listed under another scope. *)
Definition test_paper_again : ScholarRecord :=
  scraped "TEST paper." (Some "c1") ["J Smith"] true.

Definition offline_paper : ScholarRecord :=
  scraped "Offline: a Study" None ["A Writer"] true.

Definition own_paper : ScholarRecord :=
  scraped "Follow-up work" (Some "c7") ["P.C. Ma"; "M. Ihme"] false.

Definition john_smith : Work.author :=
  {| Work.given := T "John"; Work.family := T "Smith"; Work.name := T "";
     Work.affiliation := [T "Stanford  University"; T ""] |}.

Definition test_paper_work : Work.t :=
  {| Work.title := [T "Test paper"]; Work.authors := [john_smith];
     Work.issued := [[Some 2021%Z; Some 3%Z]];
     Work.DOI := Some (T "10.1000/test");
     Work.container_title := [T "Journal of Tests"] |}.

Definition other_work : Work.t :=
  {| Work.title := [T "Another paper"]; Work.authors := [];
     Work.issued := []; Work.DOI := None; Work.container_title := [] |}.

Definition untitled_work : Work.t :=
  {| Work.title := []; Work.authors := [john_smith];
     Work.issued := []; Work.DOI := None; Work.container_title := [] |}.

(** Crossref fails on the offline paper and answers every other query with
    the same three works. *)
Definition crossref : Session :=
  λ _ title,
    if decide (title = T "Offline: a Study") then Failure (T "timeout")
    else Items [untitled_work; other_work; test_paper_work].

(** An entry whose affiliation list is longer than its author list. *)
Definition mismatched_entry : Info.t :=
  {| Info.status := Some (T "ok"); Info.error := None;
     Info.score := Some 1%Q; Info.doi := None; Info.journal := None;
     Info.year := None; Info.first_author := None;
     Info.first_affiliations := None;
     Info.authors := Some [T "John Smith"];
     Info.authors_affiliations := Some [[T "Stanford"]; [T "MIT"]] |}.

Definition empty_world : World := {| cache := ∅; log := [] |}.

Definition scraped_2020_2021 : gmap (option Z) (list ScholarRecord) :=
  {[ Some 2020%Z := [test_paper; own_paper];
     Some 2021%Z := [offline_paper];
     None := [test_paper_again; offline_paper] ]}.

End Samples.

(** The shape of a whitespace-normalized text: its only whitespace is the
    space, it neither starts nor ends with whitespace, and no two whitespace
    characters are adjacent. *)
Definition whitespace_normal `{PyRuntime} (s : text) : Prop :=
  (∀ c, c ∈ s → isspace c = true → c = 32%N)
  ∧ (∀ c, head s = Some c → isspace c = false)
  ∧ (∀ c, last s = Some c → isspace c = false)
  ∧ (∀ l1 c d l2, s = l1 ++ c :: d :: l2 →
       isspace c = true → isspace d = false).

(** ** The normalization of a name in the words of the specification *)

Section SpecNormalization.
Context `{PyRuntime}.

(** The pieces of a text between its whitespace characters. *)
Fixpoint split_ws (s : text) : list text :=
  match s with
  | [] => [[]]
  | c :: s' =>
      if isspace c then [] :: split_ws s'
      else match split_ws s' with
           | [] => [[c]]
           | part :: parts => (c :: part) :: parts
           end
  end.

(** The words of a text: the pieces that are not empty. *)
Definition words (s : text) : list text :=
  filter (λ w, truthy w) (split_ws s).

(** "Collapse whitespace": the words, one space between two of them. *)
Definition spec_collapse_whitespace (s : text) : text :=
  join (T " ") (words s).

(** "Lowercase, strip punctuation, collapse whitespace", punctuation being
    what is neither a word character nor whitespace. *)
Definition spec_normalized_name (name : text) : text :=
  spec_collapse_whitespace
    (filter (λ c, isword c || isspace c) (lower name)).

End SpecNormalization.

(** ** Scraping helpers of [collect_citations.py] *)

(** [s.split(sep)] for a separator of one character. *)
Fixpoint split_on (sep : char) (s : text) : list text :=
  match s with
  | [] => [[]]
  | c :: s' =>
      if (c =? sep)%N then [] :: split_on sep s'
      else match split_on sep s' with
           | [] => [[c]]
           | part :: parts => (c :: part) :: parts
           end
  end.

(** [s.split(sep, 1)[0]]: the text before the first separator. *)
Fixpoint before_first (sep : char) (s : text) : text :=
  match s with
  | [] => []
  | c :: s' => if (c =? sep)%N then [] else c :: before_first sep s'
  end.

Fixpoint starts_with (prefix s : text) : bool :=
  match prefix, s with
  | [], _ => true
  | _ :: _, [] => false
  | p :: prefix', c :: s' => (p =? c)%N && starts_with prefix' s'
  end.

(** [needle in s] *)
Fixpoint contains (needle s : text) : bool :=
  starts_with needle s
  || match s with [] => false | _ :: s' => contains needle s' end.

(** The two ellipsis markers: the character U+2026 and three dots. *)
Definition ELLIPSIS : text := [8230%N].
Definition DOTS : text := T "...".

(** The decimal digits of the runtime: [digit_value c] is the value of [c]
    when [c] is in the class [\d] of [re], which is also what [int] reads. *)
Class PyDigits := {
  digit_value : char → option Z;
  digit_value_range : ∀ c v, digit_value c = Some v → (0 ≤ v ≤ 9)%Z;
}.

Module Latin1Digits.
Definition l1_digit_value (c : char) : option Z :=
  if Latin1.between 48 57 c then Some (Z.of_N c - 48)%Z else None.

Definition digits : PyDigits.
Proof.
  refine {| digit_value := l1_digit_value |}.
  intros c v. unfold l1_digit_value, Latin1.between.
  destruct (48 <=? c)%N eqn:Hlo; [|done].
  destruct (c <=? 57)%N eqn:Hhi; [|done]. simpl. intros [= <-].
  apply N.leb_le in Hlo, Hhi. lia.
Defined.
End Latin1Digits.

Section Scraping.
Context `{PyRuntime} `{PyDigits}.

Definition parse_authors (authors_raw : text) : list text :=
  if truthy authors_raw then
    (* Only keep the first section before the first dash *)
    let authors_segment := before_first 45%N authors_raw in
    let candidates := normalize_whitespace <$> split_on 44%N authors_segment in
    filter (λ c, truthy c ∧ c ≠ ELLIPSIS ∧ c ≠ DOTS) candidates
  else [].

(** The alternatives [19|20|21] of the year pattern at two characters. *)
Definition century (a b : char) : option Z :=
  if (a =? 49)%N && (b =? 57)%N then Some 19%Z
  else if (a =? 50)%N && (b =? 48)%N then Some 20%Z
  else if (a =? 50)%N && (b =? 49)%N then Some 21%Z
  else None.

(** The year pattern at the start of [s]: the value [int] gives the four
    matched characters. *)
Definition year_at (s : text) : option Z :=
  match s with
  | a :: b :: c :: d :: _ =>
      match century a b, digit_value c, digit_value d with
      | Some h, Some x, Some y => Some (h * 100 + x * 10 + y)%Z
      | _, _, _ => None
      end
  | _ => None
  end.

(** [re.search] tries the positions from left to right. *)
Fixpoint extract_year (meta : text) : option Z :=
  match meta with
  | [] => None
  | _ :: rest =>
      match year_at meta with
      | Some y => Some y
      | None => extract_year rest
      end
  end.

End Scraping.

(** ** The Scholar scrape of [collect_citations.py] *)

(** What the selectors give for one result entry: the inner text of
    [h3.gs_rt], the link in it, the texts of [.gs_a] and [.gs_rs], and the
    attribute [data-cid]; [None] when the element or attribute is absent. *)
Record EntryHandle := {
  gs_rt : option text;
  gs_rt_href : option text;
  gs_a : option text;
  gs_rs : option text;
  data_cid : option text;
}.

(** A loaded results page: the text of [#gs_ab_md] ([None] when reading it
    raises or gives nothing) and the result entries, [None] for an entry
    whose reading raises. *)
Record Page := {
  summary : option text;
  entries : list (option EntryHandle);
}.

(** The site: the page served for a scope and a start offset. *)
Definition Scholar := option Z → nat → Page.

(** The limit on the number of digits that [int] converts from a [str],
    [sys.get_int_max_str_digits()]: 4300 unless changed, never between 1
    and 639, and [0] for no limit (as before Python 3.11).  The four
    characters that [extract_year] converts are always within it. *)
Class PyIntLimit := {
  int_max_str_digits : nat;
  int_max_str_digits_range :
    int_max_str_digits = 0 ∨ 640 ≤ int_max_str_digits;
}.

Section Scrape.
Context `{PyRuntime} `{PyDigits} `{PyIntLimit}.

(** [re.findall(r"\d+", s)]: the maximal runs of digits; [run] is the run
    being read. *)
Fixpoint findall_digits (run : text) (s : text) : list text :=
  match s with
  | [] => if truthy run then [run] else []
  | c :: s' =>
      match digit_value c with
      | Some _ => findall_digits (run ++ [c]) s'
      | None =>
          if truthy run then run :: findall_digits [] s'
          else findall_digits [] s'
      end
  end.

(** [int(d)] on a run of digits: [None] when [int] raises [ValueError]
    because the run has more digits than the limit. *)
Definition int_of_digits (d : text) : option Z :=
  if decide (int_max_str_digits ≠ 0 ∧ int_max_str_digits < length d)
  then None
  else Some (foldl (λ n c, n * 10 + default 0 (digit_value c))%Z 0%Z d).

(** The total that the first page announces: the largest number in the
    summary line; [None] when the line has no number and when [int] raises
    on one of the runs, which the [except] clause turns into no total. *)
Definition total_results (summary : option text) : option Z :=
  match summary with
  | Some (c :: t) =>
      match mapM int_of_digits
              (findall_digits [] (normalize_whitespace (c :: t))) with
      | Some (n :: numbers) => Some (foldl Z.max n numbers)
      | _ => None
      end
  | _ => None
  end.

(** The record of one entry; [None] when the entry has no title and the
    loop goes on. *)
Definition entry_record (start : nat) (handle : EntryHandle)
  : option ScholarRecord :=
  match gs_rt handle with
  | Some (c :: t) =>
      let title := normalize_whitespace (c :: t) in
      let authors_raw := gs_a handle in
      let raw_meta := normalize_whitespace (default [] authors_raw) in
      let truncated :=
        match authors_raw with
        | Some (a :: r) =>
            contains ELLIPSIS (a :: r) || contains DOTS (a :: r)
            || contains [31561%N] (lower (a :: r))
        | _ => false
        end in
      Some {| title := title;
              url := gs_rt_href handle;
              authors_raw := raw_meta;
              snippet := normalize_whitespace (default [] (gs_rs handle));
              raw_meta := raw_meta;
              year := extract_year raw_meta;
              cluster_id := data_cid handle;
              page_index := Z.of_nat (start / 10);
              authors_list := parse_authors (default [] authors_raw);
              authors_truncated := truncated |}
  | _ => None
  end.

Definition fetch_page_entries (page : Page) (start : nat)
  : list ScholarRecord * option Z :=
  (omap (λ handle, handle ≫= entry_record start) (entries page),
   if decide (start = 0) then total_results (summary page) else None).

(** The pagination loop of [scrape_years] for one scope, from the state
    [start], [total_expected], [collected]; [requested] lists the offsets
    asked for.  [None] when the loop is still running after [fuel] pages. *)
Fixpoint scrape_pages (fuel : nat) (fetch : nat → list ScholarRecord * option Z)
    (start : nat) (total_expected : option Z)
    (collected : list ScholarRecord) (requested : list nat)
  : option (list ScholarRecord * list nat) :=
  match fuel with
  | O => None
  | S fuel' =>
      let '(records, total) := fetch start in
      let requested := requested ++ [start] in
      let total_expected :=
        match total_expected, total with
        | None, Some n => if decide (n = 0%Z) then None else Some n
        | _, _ => total_expected
        end in
      if truthy records then
        let collected := collected ++ records in
        let start := start + 10 in
        match total_expected with
        | Some n =>
            if decide (n ≤ Z.of_nat start)%Z then Some (collected, requested)
            else scrape_pages fuel' fetch start total_expected collected
                   requested
        | None =>
            scrape_pages fuel' fetch start total_expected collected requested
        end
      else Some (collected, requested)
  end.

(** The records of one scope and the offsets requested for it. *)
Definition scrape_scope (fuel : nat) (site : Scholar) (scope : option Z)
  : option (list ScholarRecord * list nat) :=
  scrape_pages fuel (λ start, fetch_page_entries (site scope start) start)
    0 None [] [].

(** [scrape_years]: the loop over the scopes fills the result dict. *)
Fixpoint scrape_years (fuel : nat) (site : Scholar) (years : list (option Z))
    (results : gmap (option Z) (list ScholarRecord))
  : option (gmap (option Z) (list ScholarRecord)) :=
  match years with
  | [] => Some results
  | scope :: rest =>
      match scrape_scope fuel site scope with
      | None => None
      | Some (collected, _) =>
          scrape_years fuel site rest (<[scope := collected]> results)
      end
  end.

End Scrape.

(** ** Entries that [query_crossref] writes *)

(** The three shapes of an entry written by a live query, with the range of
    the score that the threshold leaves to each. *)
Definition query_written `{PyRuntime} (info : Info.t) : Prop :=
  (∃ exc, info = error_entry exc)
  ∨ (∃ s, info = no_match_entry s ∧ (0 <= s)%Q ∧ (s < float_0_6)%Q)
  ∨ (∃ item s, info = ok_entry item s ∧ (float_0_6 <= s)%Q).

(** ** The pipeline of [openalex_citations.py] *)

Module openalex_pipeline.

(** An authorship of a work: the author's [display_name] and the
    [display_name]s of the institutions, [[]] for a missing or [null] one. *)
Record Authorship := {
  author_display_name : text;
  institution_names : list text;
}.

(** A citing work, with the fields that the filter reads. *)
Record WorkRecord := {
  id : text;
  display_name : text;
  authorships : list Authorship;
}.

(** The answer to a page request: an exception of [requests], or the
    [results] and [meta.next_cursor] of the payload. *)
Inductive PageAnswer :=
| HttpError
| PageOf (results : list WorkRecord) (next_cursor : option text).

(** The works endpoint, by work id and cursor. *)
Definition WorksApi := text → text → PageAnswer.

Inductive Request :=
| GetTarget
| GetWorks (cursor : text).

(** How a fetch ends: with a value, with an exception of [requests], or
    not within the fuel. *)
Inductive Fetched (A : Type) :=
| Got (a : A)
| Failed
| Unfinished.
Arguments Got {A} a.
Arguments Failed {A}.
Arguments Unfinished {A}.

(** How [main] ends: normally, with the raw file as written, the filtered
    records and the requests sent; with an exception, the raw file being
    what it is at that point; or not within the fuel. *)
Inductive Outcome :=
| Finished (file : File (list WorkRecord)) (filtered : list WorkRecord)
    (requests : list Request)
| Crashed (file : File (list WorkRecord))
| Running.

(** What [main] does once it has the citing records, as far as it can
    fail: [write_text] on the raw file, and then the report (the rows, the
    [DataFrame], the CSV file and the Markdown summary).
    [write_raw records] is [None] when the write succeeds, and
    [Some leftover] when it raises and leaves the file [leftover]; [report records filtered] is
    [false] when a step of the report raises. *)
Record Disk := {
  write_raw : list WorkRecord → option (File (list WorkRecord));
  report : list WorkRecord → list WorkRecord → bool;
}.

Definition results_of (answer : PageAnswer) : list WorkRecord :=
  match answer with PageOf results _ => results | HttpError => [] end.

(** The cursor to go on with, if the payload has a non-empty one. *)
Definition next_of (answer : PageAnswer) : option text :=
  match answer with
  | PageOf _ (Some (c :: cs)) => Some (c :: cs)
  | _ => None
  end.

Section Pipeline.
Context `{PyRuntime}.

(** The body of the loop of [extract_authors]. *)
Definition extract_step (acc : list text * list (list text))
    (authorship : Authorship) : list text * list (list text) :=
  let name := normalize_whitespace (author_display_name authorship) in
  let institutions :=
    normalize_whitespace
    <$> filter (λ inst, truthy inst) (institution_names authorship) in
  if truthy name
  then (acc.1 ++ [name], acc.2 ++ [filter (λ aff, truthy aff) institutions])
  else acc.

Definition extract_authors (record : WorkRecord)
  : list text * list (list text) :=
  foldl extract_step ([], []) (authorships record).

(** The filter loop of [main]. *)
Fixpoint filtered_records (citing_records : list WorkRecord)
  : list WorkRecord :=
  match citing_records with
  | [] => []
  | record :: rest =>
      if openalex_citations.should_exclude_self_citation
           (extract_authors record).1
      then filtered_records rest
      else record :: filtered_records rest
  end.

(** The loop of [fetch_citing_works] from a non-empty cursor, with the
    records and the cursors so far. *)
Fixpoint fetch_pages (fuel : nat) (api : WorksApi) (work_id cursor : text)
    (citing_records : list WorkRecord) (asked : list text)
  : Fetched (list WorkRecord * list text) :=
  match fuel with
  | O => Unfinished
  | S fuel' =>
      match api work_id cursor with
      | HttpError => Failed
      | PageOf results next_cursor =>
          let citing_records := citing_records ++ results in
          let asked := asked ++ [cursor] in
          match next_cursor with
          | Some (c :: cs) =>
              fetch_pages fuel' api work_id (c :: cs) citing_records asked
          | _ => Got (citing_records, asked)
          end
      end
  end.

Definition fetch_citing_works (fuel : nat) (api : WorksApi) (work_id : text)
  : Fetched (list WorkRecord * list text) :=
  fetch_pages fuel api work_id (T "*") [] [].

(** [target_work["id"].split("/")[-1]] *)
Definition last_segment (url : text) : text :=
  default [] (last (split_on 47%N url)).

(** The two fetches of [main]: the target work ([None] when the request
    raises, else its [id]), then the citing works. *)
Definition fetch_all (fuel : nat) (target : option text) (api : WorksApi)
  : Fetched (list WorkRecord * list Request) :=
  match target with
  | None => Failed
  | Some target_id =>
      match fetch_citing_works fuel api (last_segment target_id) with
      | Got (citing_records, asked) =>
          Got (citing_records, GetTarget :: (GetWorks <$> asked))
      | Failed => Failed
      | Unfinished => Unfinished
      end
  end.

(** [main] from the write of the raw file on: the write, the filter loop
    and the report. *)
Definition finish (disk : Disk) (citing_records : list WorkRecord)
    (requests : list Request) : Outcome :=
  match write_raw disk citing_records with
  | Some leftover => Crashed leftover
  | None =>
      let filtered := filtered_records citing_records in
      if report disk citing_records filtered
      then Finished (Holds citing_records) filtered requests
      else Crashed (Holds citing_records)
  end.

(** [main]: the cached raw file is used unless a refresh is forced or the
    file gives nothing; the raw file is written in both cases, before the
    filter and the report. *)
Definition main (force_refresh : bool) (output_json : File (list WorkRecord))
    (fuel : nat) (target : option text) (api : WorksApi) (disk : Disk)
  : Outcome :=
  let fetch :=
    match fetch_all fuel target api with
    | Got (citing_records, requests) => finish disk citing_records requests
    | Failed => Crashed output_json
    | Unfinished => Running
    end in
  if force_refresh then fetch
  else
    match openalex_citations.load_json output_json with
    | Raise _ => Crashed output_json
    | Return (Some (record :: rest)) => finish disk (record :: rest) []
    | Return _ => fetch
    end.

End Pipeline.
End openalex_pipeline.

(** ** Output rows of [collect_citations.py] *)

(** The order of [str]: by code points, a proper prefix first. *)
Fixpoint text_leb (a b : text) : bool :=
  match a, b with
  | [], _ => true
  | _ :: _, [] => false
  | x :: a', y :: b' =>
      if (x <? y)%N then true
      else if (y <? x)%N then false
      else text_leb a' b'
  end.

Definition text_le (a b : text) : Prop := text_leb a b = true.

#[global] Instance text_le_dec : RelDecision text_le.
Proof. intros a b. unfold text_le. apply _. Defined.

(** [sorted(set(l))] *)
Definition sorted_set (l : list text) : list text :=
  merge_sort text_le (remove_dups l).

(** The formatting of a float with two decimals, [f"{x:.2f}"]. *)
Class PyFormat := {
  format_2f : Q → text;
}.

(** The row of the CSV file, by column: [序号], [引用文献标题], [全部作者],
    [作者-单位对应], [作者单位（汇总）], [发表年份] (a year, or the sentinel),
    [来源链接], [DOI], [Crossref期刊], [备注]. *)
Record Row := {
  row_index : Z;
  row_title : text;
  row_authors : text;
  row_author_affiliations : text;
  row_affiliations : text;
  row_year : option Z;
  row_link : text;
  row_doi : text;
  row_journal : text;
  row_notes : text;
}.

Section Rows.
Context `{PyRuntime} `{PyFormat}.

Definition format_author_entry (name : text) (affiliations : list text)
  : text :=
  let clean_name := if truthy name then name else MISSING in
  let clean_affs :=
    sorted_set (normalize_whitespace
                <$> filter (λ aff, truthy aff) affiliations) in
  if truthy clean_affs
  then clean_name ++ T " (" ++ join (T "; ") clean_affs ++ T ")"
  else clean_name ++ T " (" ++ MISSING ++ T ")".

(** [affs_clean] of the loop of [record_to_output_row] *)
Definition affs_clean (affs : list text) : list text :=
  normalize_whitespace <$> filter (λ aff, truthy aff) affs.

(** The loop over [zip(final_authors, final_author_affiliations)]: the
    entries, one per pair. *)
Definition author_entries (record : EnrichedRecord) : list text :=
  (λ pair, format_author_entry pair.1 (affs_clean pair.2))
  <$> zip (final_authors record) (final_author_affiliations record).

(** The same loop: the affiliations it gathers. *)
Definition aggregated_affiliations (record : EnrichedRecord) : list text :=
  mjoin ((λ pair, affs_clean pair.2)
         <$> zip (final_authors record) (final_author_affiliations record)).

Definition notes (record : EnrichedRecord) : list text :=
  (if decide (crossref_status record ≠ T "ok")
   then [T "crossref_status=" ++ crossref_status record] else [])
  ++ match crossref_score record with
     | Some score => [T "score=" ++ format_2f score]
     | None => []
     end
  ++ (if truthy (final_authors record) then [] else [T "missing_authors"])
  ++ (if decide (author_source record ≠ T "crossref")
      then [T "author_source=" ++ author_source record] else [])
  ++ (if authors_truncated (scholar record)
         && bool_decide (author_source record ≠ T "crossref")
      then [T "scholar_authors_may_be_truncated"] else []).

(** [a or b] on optional years: a year that is [0] counts as absent. *)
Definition year_or (a b : option Z) : option Z :=
  match a with
  | Some y => if decide (y = 0%Z) then b else Some y
  | None => b
  end.

Definition source_link (record : EnrichedRecord) : text :=
  let link :=
    match url (scholar record), cluster_id (scholar record) with
    | Some (c :: u), _ => c :: u
    | _, Some (c :: cid) =>
        T "https://scholar.google.com/scholar?cluster=" ++ (c :: cid)
    | _, _ => []
    end in
  if truthy link then link else MISSING.

Definition record_to_output_row (index : Z) (record : EnrichedRecord) : Row :=
  let entries := author_entries record in
  let affiliations := sorted_set (aggregated_affiliations record) in
  {| row_index := index;
     row_title := title (scholar record);
     row_authors :=
       if truthy (final_authors record)
       then join (T "; ") (final_authors record) else MISSING;
     row_author_affiliations :=
       if truthy entries then join (T " | ") entries else MISSING;
     row_affiliations :=
       if truthy affiliations then join (T "; ") affiliations else MISSING;
     row_year :=
       year_or (year_or (crossref_year record) (year (scholar record))) None;
     row_link := source_link record;
     row_doi := default [] (doi record);
     row_journal := default [] (journal record);
     row_notes := join (T "; ") (notes record) |}.

End Rows.

(** ** More sample data *)

Module MoreSamples.
Import openalex_pipeline.

Definition entry (title authors : string) (cid : option string)
  : option EntryHandle :=
  Some {| gs_rt := Some (T title); gs_rt_href := None;
          gs_a := Some (T authors); gs_rs := None;
          data_cid := T <$> cid |}.

Definition untitled_entry : option EntryHandle :=
  Some {| gs_rt := None; gs_rt_href := None; gs_a := None; gs_rs := None;
          data_cid := None |}.

(** A first page that announces twelve results, a second page, then empty
    pages. *)
Definition first_page : Page :=
  {| summary := Some (T "About 12 results (0.03 sec)");
     entries := [entry "Test  Paper" "J Smith, K Lee - Journal, 2020 - pub"
                   (Some "c1");
                 None;
                 untitled_entry] |}.

Definition second_page : Page :=
  {| summary := None;
     entries := [entry "Another paper" "A Writer, ... - 1999" None] |}.

Definition empty_page : Page := {| summary := None; entries := [] |}.

Definition site : Scholar :=
  λ _ start,
    match start with
    | 0 => first_page
    | 10 => second_page
    | _ => empty_page
    end.

(** The same site without the summary line. *)
Definition quiet_site : Scholar :=
  λ _ start,
    match start with
    | 0 => {| summary := None; entries := entries first_page |}
    | _ => empty_page
    end.

Definition jane : Authorship :=
  {| author_display_name := T " Jane  Doe ";
     institution_names := [T "MIT"; T ""] |}.

Definition ihme : Authorship :=
  {| author_display_name := T "Matthias Ihme";
     institution_names := [T "Stanford University"] |}.

Definition nameless : Authorship :=
  {| author_display_name := T ""; institution_names := [T "Nowhere"] |}.

Definition citing_work : WorkRecord :=
  {| id := T "https://openalex.org/W1"; display_name := T "A citing work";
     authorships := [jane; nameless] |}.

Definition self_citing_work : WorkRecord :=
  {| id := T "https://openalex.org/W2"; display_name := T "A follow-up";
     authorships := [ihme; jane] |}.

(** Two pages of citing works, the second without a next cursor. *)
Definition works_api : WorksApi :=
  λ _ cursor,
    if decide (cursor = T "*") then PageOf [citing_work] (Some (T "c2"))
    else if decide (cursor = T "c2") then PageOf [self_citing_work] None
    else HttpError.

(** The second page fails. *)
Definition failing_api : WorksApi :=
  λ _ cursor,
    if decide (cursor = T "*") then PageOf [citing_work] (Some (T "c2"))
    else HttpError.

(** A disk on which everything works, one on which the write of the raw
    file fails and leaves an empty file, and one on which the report
    fails. *)
Definition good_disk : Disk :=
  {| write_raw := λ _, None; report := λ _ _, true |}.

Definition full_disk : Disk :=
  {| write_raw := λ _, Some Malformed; report := λ _ _, true |}.

Definition no_report_disk : Disk :=
  {| write_raw := λ _, None; report := λ _ _, false |}.

Definition sample_format : PyFormat := {| format_2f := λ _, T "0.00" |}.

(** The limit of [int] as Python 3.11 and later set it. *)
Definition default_int_limit : PyIntLimit.
Proof. refine {| int_max_str_digits := 4300 |}. right. lia. Defined.

End MoreSamples.

(** * Properties *)

Section Facts.
Context `{PyRuntime}.
Implicit Types (w : World) (session : Session) (info : Info.t).
Implicit Types (record r : ScholarRecord) (e : EnrichedRecord).

(** ** Python idioms *)

Lemma truthy_true {A} (l : list A) : truthy l = true ↔ l ≠ [].
Proof. destruct l; simpl; split; congruence. Qed.

Lemma truthy_false {A} (l : list A) : truthy l = false ↔ l = [].
Proof. destruct l; simpl; split; congruence. Qed.

Lemma or_else_nil {A} (x : option (list A)) : or_else x [] = default [] x.
Proof. by destruct x as [[|]|]. Qed.

Lemma or_else_cases {A} (x : option (list A)) (d : list A) :
  (default [] x = [] ∧ or_else x d = d)
  ∨ (default [] x ≠ [] ∧ or_else x d = default [] x).
Proof. destruct x as [[|a l]|]; simpl; auto. Qed.

Lemma Qltb_lt (a b : Q) : Qltb a b = true ↔ (a < b)%Q.
Proof.
  unfold Qltb. rewrite negb_true_iff, <- not_true_iff_false, Qle_bool_iff.
  split; [apply Qnot_le_lt | apply Qlt_not_le].
Qed.

Lemma Qltb_ge (a b : Q) : Qltb a b = false ↔ (b <= a)%Q.
Proof. unfold Qltb. by rewrite negb_false_iff, Qle_bool_iff. Qed.

Lemma fmap_nil_const {A} (l : list A) :
  (λ _, [] : list text) <$> l = replicate (length l) [].
Proof. induction l as [|a l IH]; [done|]. csimpl. by rewrite IH. Qed.

(** ** Alignment of affiliations *)

(** With as many rounds as the target length, the padding loop runs to its
    end: the result is the list followed by the missing empty lists. *)
Lemma pad_loop_spec fuel n (affs : list (list text)) :
  n - length affs ≤ fuel →
  pad_loop fuel n affs = affs ++ replicate (n - length affs) [].
Proof.
  revert affs. induction fuel as [|fuel IH]; intros affs Hfuel; simpl.
  - replace (n - length affs) with 0 by lia. by rewrite app_nil_r.
  - destruct (Nat.ltb_spec (length affs) n) as [Hlt|Hge].
    + rewrite IH by (rewrite length_app; simpl; lia).
      rewrite length_app, <- app_assoc. simpl.
      replace (n - length affs) with (S (n - (length affs + 1))) by lia.
      done.
    + replace (n - length affs) with 0 by lia. by rewrite app_nil_r.
Qed.

Lemma align_spec (authors : list text) (affs : option (list (list text))) :
  let n := length authors in
  align authors (or_else affs ((λ _, []) <$> authors))
  = take n (default [] affs) ++ replicate (n - length (default [] affs)) [].
Proof.
  intros n. unfold align. fold n.
  destruct (or_else_cases affs ((λ _, []) <$> authors)) as [[Hd ->]|[Hd ->]].
  - rewrite Hd. simpl. rewrite take_nil, Nat.sub_0_r. simpl.
    rewrite length_fmap, bool_decide_false by (intros Hne; by apply Hne).
    rewrite andb_false_r. apply fmap_nil_const.
  - apply truthy_true in Hd as Ht. rewrite Ht. simpl.
    case_bool_decide as Hlen.
    + rewrite pad_loop_spec by lia. rewrite length_take.
      f_equal. f_equal. lia.
    + rewrite Hlen, Nat.sub_diag, take_ge by lia. by rewrite app_nil_r.
Qed.

Lemma align_length (authors : list text) (affs : option (list (list text))) :
  length (align authors (or_else affs ((λ _, []) <$> authors)))
  = length authors.
Proof.
  rewrite align_spec. rewrite length_app, length_take, length_replicate. lia.
Qed.

(** ** One query *)

Lemma query_crossref_hit title session w info :
  cache w !! normalize_title title = Some info →
  query_crossref title session w = (info, w).
Proof. intros Hhit. unfold query_crossref. by rewrite Hhit. Qed.

Lemma query_crossref_miss title session w :
  cache w !! normalize_title title = None →
  ∃ entry,
    query_crossref title session w
    = (entry, {| cache := <[normalize_title title := entry]> (cache w);
                 log := log w ++ [title] |})
    ∧ entry = match session (log w) title with
              | Failure exc => error_entry exc
              | Items items => match_entry (normalize_title title) items
              end.
Proof. intros Hmiss. unfold query_crossref. rewrite Hmiss. eauto. Qed.

(** What a query leaves behind: the cache only grows, the answer is the
    entry under the normalized title, and a query is sent only on a miss. *)
Lemma query_crossref_post title session w :
  let '(info, w') := query_crossref title session w in
  cache w ⊆ cache w'
  ∧ cache w' !! normalize_title title = Some info
  ∧ ((w' = w ∧ cache w !! normalize_title title = Some info)
     ∨ (log w' = log w ++ [title] ∧ cache w !! normalize_title title = None)).
Proof.
  destruct (cache w !! normalize_title title) as [info|] eqn:Hlook.
  - rewrite (query_crossref_hit _ _ _ _ Hlook). auto.
  - destruct (query_crossref_miss title session w Hlook) as (entry & -> & _).
    simpl. split_and!.
    + by apply insert_subseteq.
    + by rewrite lookup_insert_eq.
    + auto.
Qed.

(** ** The enrichment loop *)


(** The invariant of the loop.  Every record is enriched from the entry that
    the final cache holds under its normalized title; the cache only grows;
    the queries sent are for titles the cache did not hold at the start. *)
Lemma enrich_loop_post session (records : list ScholarRecord) w :
  let '(out, w') := enrich_loop session records w in
  cache w ⊆ cache w'
  ∧ Forall2 (λ r e, ∃ info,
       cache w' !! normalize_title (title r) = Some info ∧ e = enrich r info)
     records out
  ∧ ∃ sent, log w' = log w ++ sent
      ∧ Forall (λ t, cache w !! normalize_title t = None) sent
      ∧ Forall (λ t, is_Some (cache w' !! normalize_title t)) sent.
Proof.
  revert w. induction records as [|r rest IH]; intros w; simpl.
  - split_and!; [done|constructor|]. exists []. by rewrite app_nil_r.
  - unfold enrich_step.
    pose proof (query_crossref_post (title r) session w) as Hq.
    destruct (query_crossref (title r) session w) as [info w1].
    destruct Hq as (Hsub1 & Hinfo & Hlog1).
    specialize (IH w1). destruct (enrich_loop session rest w1) as [out w2].
    destruct IH as (Hsub2 & Hall & sent & Hlog2 & Hsent & Hkept).
    split_and!.
    + by etrans.
    + constructor; [|done]. exists info. split; [|done].
      by eapply lookup_weaken.
    + destruct Hlog1 as [[-> _]|[Hlog1 Hmiss]].
      * by exists sent.
      * exists (title r :: sent). split_and!.
        -- rewrite Hlog2, Hlog1, <- app_assoc. done.
        -- constructor; [done|].
           eapply Forall_impl; [exact Hsent|]. intros t Ht. simpl in Ht.
           destruct (cache w !! normalize_title t) as [i|] eqn:Hw; [|done].
           by rewrite (lookup_weaken _ _ _ _ Hw Hsub1) in Ht.
        -- constructor; [|done]. exists info. by eapply lookup_weaken.
Qed.


(** [enrich_records] returns unless the cache file cannot be read. *)
Lemma load_crossref_cache_readable (file : File CacheDoc) :
  file ≠ Unreadable → ∃ cache0, load_crossref_cache file = Return cache0.
Proof. destruct file as [| | |[m|]]; simpl; intros Hne; eauto; done. Qed.

Lemma enrich_records_returns session (records : list ScholarRecord)
    (file : File CacheDoc) :
  file ≠ Unreadable →
  ∃ cache0 out w',
    load_crossref_cache file = Return cache0
    ∧ enrich_loop session records {| cache := cache0; log := [] |} = (out, w')
    ∧ enrich_records session records file
      = Return (out, Holds (Object (cache w')), log w').
Proof.
  intros Hfile.
  destruct (load_crossref_cache_readable file Hfile) as [cache0 Hload].
  unfold enrich_records. rewrite Hload.
  destruct (enrich_loop _ _ _) as [out w'] eqn:Hloop.
  by exists cache0, out, w'.
Qed.

(** ** The merge of one record *)

Lemma enrich_merge r info :
  let e := enrich r info in
  let enrichment := default [] (Info.authors info) in
  (enrichment ≠ [] →
     final_authors e = enrichment ∧ author_source e = T "crossref")
  ∧ (enrichment = [] → authors_list r ≠ [] →
     final_authors e = authors_list r
     ∧ author_source e
       = if authors_truncated r then T "scholar_truncated" else T "scholar")
  ∧ (enrichment = [] → authors_list r = [] →
     final_authors e = [] ∧ author_source e = T "unknown").
Proof.
  unfold enrich. rewrite or_else_nil.
  destruct (default [] (Info.authors info)) as [|a l] eqn:Hauth; simpl.
  - destruct (authors_list r) as [|b l'] eqn:Hlist; simpl;
      split_and!; intros; try done.
  - split_and!; intros; try done.
Qed.

Lemma enrich_scholar r info : scholar (enrich r info) = r.
Proof. unfold enrich. by repeat case_match. Qed.



Lemma enrich_final_lengths r info :
  length (final_author_affiliations (enrich r info))
  = length (final_authors (enrich r info)).
Proof.
  unfold enrich. rewrite or_else_nil.
  pose proof (align_length (default [] (Info.authors info))
                (Info.authors_affiliations info)) as Hal.
  destruct (default [] (Info.authors info)) as [|a l]; simpl.
  - destruct (authors_list r) as [|b l']; simpl; [done|].
    by rewrite length_fmap.
  - exact Hal.
Qed.

(** ** The merge policy and the alignment over a run *)



(** ** Selection of the best candidate *)

(** The loop keeps the running maximum: afterwards the score bounds the start
    value and every candidate score, and either nothing changed or the
    selected work is one of the works and has exactly that score. *)
Lemma best_fold_spec norm (items : list Work.t) (b : option Work.t) (s : Q) :
  let '(b', s') := foldl (best_step norm) (b, s) items in
  (s <= s')%Q
  ∧ Forall (λ item, ∀ q, candidate_score norm item = Some q → (q <= s')%Q) items
  ∧ ((b', s') = (b, s)
     ∨ ∃ item, b' = Some item ∧ item ∈ items
         ∧ candidate_score norm item = Some s' ∧ (s < s')%Q).
Proof.
  revert b s. induction items as [|item items IH]; intros b s; simpl.
  - split_and!; [apply Qle_refl|constructor|by left].
  - unfold best_step at 2. simpl.
    destruct (candidate_score norm item) as [q|] eqn:Hq.
    + destruct (Qltb s q) eqn:Hlt.
      * apply Qltb_lt in Hlt. specialize (IH (Some item) q).
        destruct (foldl _ _ items) as [b' s'].
        destruct IH as (Hle & Hall & Hsel). split_and!.
        -- apply Qlt_le_weak. by eapply Qlt_le_trans.
        -- constructor; [|done]. intros q' Hq'. by simplify_eq.
        -- right. destruct Hsel as [Heq|(it & -> & Hin & Hsc & Hgt)].
           ++ simplify_eq. exists item. split_and!; try done. by left.
           ++ exists it. split_and!; try done; [by right|].
              by eapply Qlt_trans.
      * apply Qltb_ge in Hlt. specialize (IH b s).
        destruct (foldl _ _ items) as [b' s'].
        destruct IH as (Hle & Hall & Hsel). split_and!; [done| |].
        -- constructor; [|done]. intros q' Hq'. simplify_eq.
           by eapply Qle_trans.
        -- destruct Hsel as [Heq|(it & -> & Hin & Hsc & Hgt)]; [by left|].
           right. exists it. split_and!; try done. by right.
    + specialize (IH b s). destruct (foldl _ _ items) as [b' s'].
      destruct IH as (Hle & Hall & Hsel). split_and!; [done| |].
      * constructor; [|done]. intros q' Hq'. congruence.
      * destruct Hsel as [Heq|(it & -> & Hin & Hsc & Hgt)]; [by left|].
        right. exists it. split_and!; try done. by right.
Qed.

Lemma best_match_spec norm (items : list Work.t) :
  let scores := omap (candidate_score norm) items in
  match best_match norm items with
  | (None, s') => s' = 0%Q ∧ Forall (λ q, (q <= 0)%Q) scores
  | (Some item, s') =>
      item ∈ items ∧ candidate_score norm item = Some s'
      ∧ s' ∈ scores ∧ Forall (λ q, (q <= s')%Q) scores
  end.
Proof.
  intros scores. unfold best_match.
  pose proof (best_fold_spec norm items None 0%Q) as Hfold.
  destruct (foldl _ _ items) as [b' s'].
  destruct Hfold as (_ & Hall & Hsel).
  assert (Forall (λ q, (q <= s')%Q) scores) as Hbound.
  { apply Forall_forall. intros q Hq.
    apply list_elem_of_omap in Hq as (item & Hin & Hsc).
    rewrite Forall_forall in Hall. by eapply Hall. }
  destruct Hsel as [Heq|(it & -> & Hin & Hsc & Hgt)].
  - by simplify_eq.
  - split_and!; try done. apply list_elem_of_omap. eauto.
Qed.





(** ** The self-citation filter *)

Lemma normalize_author_name_nil : normalize_author_name [] = [].
Proof. unfold normalize_author_name. by rewrite lower_nil. Qed.

Lemma ORIGINAL_AUTHORS_nonempty_names : [] ∉ ORIGINAL_AUTHORS.
Proof. unfold ORIGINAL_AUTHORS. set_unfold. intros Hin. by intuition. Qed.

Lemma openalex_ORIGINAL_AUTHORS_nonempty_names :
  [] ∉ openalex_citations.ORIGINAL_AUTHORS.
Proof.
  unfold openalex_citations.ORIGINAL_AUTHORS. set_unfold.
  intros Hin. by intuition.
Qed.

(** The non-empty intersection of the Python code, name by name. *)
Lemma intersects_denylist (deny : gset text) (names : list text) :
  [] ∉ deny →
  (list_to_set (normalize_author_name <$> filter (λ a, truthy a) names)
     ∩ deny ≠ (∅ : gset text))
  ↔ Exists (λ a, normalize_author_name a ∈ deny) names.
Proof.
  intros Hnil. rewrite Exists_exists. split.
  - intros Hne. apply set_choose_L in Hne as [x Hx].
    apply elem_of_intersection in Hx as [Hx Hdeny].
    apply elem_of_list_to_set, list_elem_of_fmap in Hx as (a & -> & Ha).
    apply list_elem_of_filter in Ha as [_ Ha]. eauto.
  - intros (a & Ha & Hdeny).
    assert (truthy a) as Htruthy.
    { destruct a; [|done]. by rewrite normalize_author_name_nil in Hdeny. }
    apply (non_empty_inhabited_L (normalize_author_name a)).
    apply elem_of_intersection. split; [|done].
    apply elem_of_list_to_set, list_elem_of_fmap. exists a. split; [done|].
    by apply list_elem_of_filter.
Qed.

Lemma is_self_citation_spec (record : EnrichedRecord) :
  is_self_citation record = true
  ↔ Exists (λ a, normalize_author_name a ∈ ORIGINAL_AUTHORS)
      (author_names record).
Proof.
  unfold is_self_citation, normalized_names.
  rewrite bool_decide_eq_true.
  apply intersects_denylist, ORIGINAL_AUTHORS_nonempty_names.
Qed.

(** *** The normalization in the words of the specification *)

Lemma lstrip_snoc (y : text) (c : char) :
  lstrip (y ++ [c])
  = if isspace c
    then (if truthy (lstrip y) then lstrip y ++ [c] else [])
    else lstrip y ++ [c].
Proof.
  induction y as [|d y IH]; simpl.
  - by destruct (isspace c).
  - destruct (isspace d) eqn:Hd; [done|]. simpl. by destruct (isspace c).
Qed.

Lemma truthy_rev {A} (l : list A) : truthy (rev l) = truthy l.
Proof. destruct l as [|x l]; [done|]. simpl. by destruct (rev l). Qed.

(** [str.rstrip], from the left. *)
Lemma rstrip_cons (c : char) (x : text) :
  rev (lstrip (rev (c :: x)))
  = if isspace c
    then (if truthy (rev (lstrip (rev x)))
          then c :: rev (lstrip (rev x)) else [])
    else c :: rev (lstrip (rev x)).
Proof.
  simpl. rewrite lstrip_snoc, truthy_rev. unfold text, char in *.
  destruct (isspace c); [destruct (lstrip (rev x)) as [|d l]|];
    cbn [truthy]; try done; by rewrite rev_unit.
Qed.

Lemma lstrip_sub_ws_runs (b : bool) (s : text) :
  isspace 32%N = true → lstrip (sub_ws_runs b s) = sub_ws_runs true s.
Proof.
  intros H32. revert b. induction s as [|c s IH]; intros b; simpl; [done|].
  destruct (isspace c) eqn:Hc.
  - destruct b; simpl; [apply IH|]. rewrite H32. apply IH.
  - simpl. by rewrite Hc.
Qed.

Lemma words_truthy (s p : text) : p ∈ words s → truthy p.
Proof. unfold words. by intros [? _]%list_elem_of_filter. Qed.

Lemma truthy_join_words (s : text) :
  truthy (join (T " ") (words s)) = truthy (words s).
Proof.
  pose proof (words_truthy s) as Hw.
  destruct (words s) as [|w ws]; [done|].
  assert (truthy w) as Hne by (apply Hw; by left).
  destruct w as [|x w]; [done|]. by destruct ws.
Qed.

Lemma join_space_cons (p : text) (ps : list text) :
  join (T " ") (p :: ps)
  = p ++ (if truthy ps then 32%N :: join (T " ") ps else []).
Proof. destruct ps; simpl; [by rewrite app_nil_r|reflexivity]. Qed.

Lemma words_cons_space (c : char) (s : text) :
  isspace c = true → words (c :: s) = words s.
Proof.
  intros Hc. unfold words. simpl. rewrite Hc.
  by rewrite filter_cons_False by (by intros ?).
Qed.

(** The two states of [re.sub] followed by [rstrip]: after whitespace the
    result is the words joined by spaces; after another character it is
    the first piece, which goes on the word being read, then the words of
    the rest, a space before each. *)
Lemma rstrip_sub_ws_runs (s : text) :
  isspace 32%N = true →
  rev (lstrip (rev (sub_ws_runs true s))) = join (T " ") (words s)
  ∧ rev (lstrip (rev (sub_ws_runs false s)))
    = match split_ws s with
      | [] => []
      | part :: parts =>
          part ++ (if truthy (filter (λ p, truthy p) parts)
                   then 32%N :: join (T " ") (filter (λ p, truthy p) parts)
                   else [])
      end.
Proof.
  intros H32. induction s as [|c s [IHt IHf]]; [done|].
  destruct (isspace c) eqn:Hc.
  - split.
    + rewrite words_cons_space by done. simpl. by rewrite Hc.
    + cbn [sub_ws_runs split_ws]. rewrite Hc, rstrip_cons, H32, IHt.
      rewrite truthy_join_words. done.
  - assert (∀ b, sub_ws_runs b (c :: s) = c :: sub_ws_runs false s) as Hsub.
    { intros b. simpl. by rewrite Hc. }
    rewrite !Hsub, rstrip_cons, Hc, IHf.
    unfold words. cbn [split_ws]. rewrite Hc.
    destruct (split_ws s) as [|part parts].
    + split; [|simpl; reflexivity]. by rewrite filter_cons_True by done.
    + split; [|simpl; reflexivity]. rewrite filter_cons_True by done.
      by rewrite join_space_cons.
Qed.

Lemma split_ws_replace_nbsp (s : text) :
  isspace 32%N = true → isspace 160%N = true →
  split_ws (replace_nbsp s) = split_ws s.
Proof.
  intros H32 H160. unfold replace_nbsp.
  induction s as [|c s IH]; [done|].
  rewrite fmap_cons. cbn [split_ws]. rewrite IH.
  destruct (N.eqb_spec c 160) as [->|_]; [by rewrite H32, H160|done].
Qed.

(** [normalize_whitespace] collapses whitespace: its result is the words of
    the text with one space between two of them. *)
Lemma normalize_whitespace_words (s : text) :
  isspace 32%N = true → isspace 160%N = true →
  normalize_whitespace s = spec_collapse_whitespace s.
Proof.
  intros H32 H160. unfold normalize_whitespace, strip, spec_collapse_whitespace.
  rewrite lstrip_sub_ws_runs by done.
  rewrite (proj1 (rstrip_sub_ws_runs _ H32)).
  unfold words. by rewrite split_ws_replace_nbsp.
Qed.

Lemma normalize_author_name_words (name : text) :
  isspace 32%N = true → isspace 160%N = true →
  normalize_author_name name = spec_normalized_name name.
Proof.
  intros H32 H160. unfold normalize_author_name, spec_normalized_name.
  by apply normalize_whitespace_words.
Qed.

(** C3. [filter_self_citations] keeps, in their order, exactly the records
    none of whose author names (the final authors, or the scraped authors
    when there is no final author) is a denylisted variant once it is put
    in lower case, its punctuation is stripped and its whitespace is
    collapsed; [should_exclude_self_citation] of the OpenAlex script decides
    the same for the names it is given and for its own denylist.  The
    match with the denylist is equality of texts, and the variants are the
    ones listed. *)
Theorem self_citation_filter_exact :
  isspace 32%N = true → isspace 160%N = true →
  (∀ records : list EnrichedRecord,
     filter_self_citations records
     = filter (λ e, Forall (λ a, spec_normalized_name a ∉ ORIGINAL_AUTHORS)
                      (match final_authors e with
                       | [] => authors_list (scholar e)
                       | _ :: _ => final_authors e
                       end)) records)
  ∧ (∀ (records : list EnrichedRecord) (e : EnrichedRecord),
       e ∈ filter_self_citations records
       ↔ e ∈ records
         ∧ ∀ a, a ∈ match final_authors e with
                    | [] => authors_list (scholar e)
                    | _ :: _ => final_authors e
                    end
             → spec_normalized_name a ∉ ORIGINAL_AUTHORS)
  ∧ (∀ n, n ∈ ORIGINAL_AUTHORS
       ↔ n ∈ [T "peter c ma"; T "pc ma"; T "p c ma"; T "yu lv"; T "y lv";
              T "matthias ihme"; T "m ihme"])
  ∧ (∀ authors : list text,
       openalex_citations.should_exclude_self_citation authors = true
       ↔ ∃ a, a ∈ authors
           ∧ spec_normalized_name a ∈ openalex_citations.ORIGINAL_AUTHORS)
  ∧ (∀ n, n ∈ openalex_citations.ORIGINAL_AUTHORS
       ↔ n ∈ [T "peter c ma"; T "pc ma"; T "p c ma"; T "peter ma";
              T "yu lv"; T "y lv"; T "matthias ihme"; T "m ihme"]).
Proof.
  intros H32 H160.
  assert (∀ e : EnrichedRecord,
     author_names e = match final_authors e with
                      | [] => authors_list (scholar e)
                      | _ :: _ => final_authors e
                      end) as Hnames.
  { intros e. unfold author_names. by destruct (final_authors e). }
  assert (∀ e : EnrichedRecord,
     is_self_citation e = true
     ↔ ¬ Forall (λ a, spec_normalized_name a ∉ ORIGINAL_AUTHORS)
           (match final_authors e with
            | [] => authors_list (scholar e)
            | _ :: _ => final_authors e
            end)) as Hself.
  { intros e. rewrite is_self_citation_spec, Hnames, Exists_exists. split.
    - intros (a & Ha & Hdeny) Hall. rewrite Forall_forall in Hall.
      apply (Hall a Ha). by rewrite <- normalize_author_name_words.
    - intros Hn. apply not_Forall_Exists in Hn; [|apply _].
      apply Exists_exists in Hn as (a & Ha & Hdeny). exists a.
      split; [done|]. rewrite normalize_author_name_words by done.
      by apply dec_stable. }
  assert (∀ records : list EnrichedRecord,
     filter_self_citations records
     = filter (λ e, Forall (λ a, spec_normalized_name a ∉ ORIGINAL_AUTHORS)
                      (match final_authors e with
                       | [] => authors_list (scholar e)
                       | _ :: _ => final_authors e
                       end)) records) as Hfilter.
  { induction records as [|e records IH]; [done|]. simpl.
    destruct (is_self_citation e) eqn:He.
    - apply Hself in He. by rewrite filter_cons_False.
    - rewrite filter_cons_True; [by rewrite IH|].
      destruct (decide (Forall (λ a, spec_normalized_name a ∉ ORIGINAL_AUTHORS)
                          (match final_authors e with
                           | [] => authors_list (scholar e)
                           | _ :: _ => final_authors e
                           end))) as [|Hn]; [done|].
      apply Hself in Hn. congruence. }
  split_and!.
  - exact Hfilter.
  - intros records e. rewrite Hfilter, list_elem_of_filter, Forall_forall.
    tauto.
  - intros n. unfold ORIGINAL_AUTHORS.
    rewrite !elem_of_union, !elem_of_singleton, !elem_of_cons, elem_of_nil.
    tauto.
  - intros authors. unfold openalex_citations.should_exclude_self_citation.
    rewrite bool_decide_eq_true.
    rewrite intersects_denylist
      by apply openalex_ORIGINAL_AUTHORS_nonempty_names.
    rewrite Exists_exists.
    split; intros (a & Ha & Hdeny); exists a; split; try done.
    + by rewrite <- normalize_author_name_words.
    + by rewrite normalize_author_name_words.
  - intros n. unfold openalex_citations.ORIGINAL_AUTHORS.
    rewrite !elem_of_union, !elem_of_singleton, !elem_of_cons, elem_of_nil.
    tauto.
Qed.

(** ** Deduplication *)

Lemma dedup_scope_app (a b : list ScholarRecord)
    (st : list ScholarRecord * gset text) :
  dedup_scope (a ++ b) st = dedup_scope b (dedup_scope a st).
Proof.
  revert st. induction a as [|r a IH]; intros st; simpl; [done|].
  case_bool_decide; apply IH.
Qed.

(** The two loops of [main] are one pass over the fetched records in scope
    order. *)
Lemma combined_records_flat (years : list Z)
    (scraped_by_year : gmap (option Z) (list ScholarRecord)) :
  combined_records years scraped_by_year
  = (dedup_scope
       (mjoin ((λ scope, default [] (scraped_by_year !! scope))
               <$> scrape_targets years))
       ([], ∅)).1.
Proof.
  unfold combined_records, scrape_targets.
  generalize (([], ∅) : list ScholarRecord * gset text).
  induction years as [|y years IH]; intros st; simpl.
  - by rewrite app_nil_r.
  - rewrite dedup_scope_app. apply IH.
Qed.


Lemma filter_key_NoDup (key : text) (l : list ScholarRecord) :
  NoDup (record_key <$> l) →
  take 1 (filter (λ r, record_key r = key) l)
  = filter (λ r, record_key r = key) l.
Proof.
  induction l as [|x l IH]; [done|]. csimpl. intros Hnd.
  apply NoDup_cons in Hnd as [Hx Hnd].
  destruct (decide (record_key x = key)) as [Hk|Hk].
  - rewrite filter_cons_True by done. simpl. f_equal.
    destruct (filter (λ r, record_key r = key) l) as [|y l'] eqn:Hf; [done|].
    exfalso. apply Hx.
    assert (y ∈ filter (λ r, record_key r = key) l) as Hy
      by (rewrite Hf; by left).
    apply list_elem_of_filter in Hy as [Hyk Hy].
    apply list_elem_of_fmap. exists y. split; [congruence|done].
  - rewrite filter_cons_False by done. by apply IH.
Qed.

Lemma take_1_app_nonempty {A} (l k1 k2 : list A) :
  l ≠ [] → take 1 (l ++ k1) = take 1 (l ++ k2).
Proof. by destruct l. Qed.

(** For every key, the pass keeps the first record with that key. *)
Lemma dedup_scope_first (key : text) (records acc : list ScholarRecord)
    (seen : gset text) :
  seen = list_to_set (record_key <$> acc) →
  NoDup (record_key <$> acc) →
  filter (λ r, record_key r = key) (dedup_scope records (acc, seen)).1
  = take 1 (filter (λ r, record_key r = key) (acc ++ records)).
Proof.
  revert acc seen.
  induction records as [|r rest IH]; intros acc seen Hseen Hnd; simpl.
  - rewrite app_nil_r. symmetry. by apply filter_key_NoDup.
  - case_bool_decide as Hin.
    + rewrite IH by done. rewrite !filter_app.
      destruct (decide (record_key r = key)) as [Hk|Hk].
      * apply take_1_app_nonempty.
        rewrite Hseen in Hin.
        apply elem_of_list_to_set, list_elem_of_fmap in Hin as (a & Ha & Hacc).
        intros Hnil.
        assert (a ∈ filter (λ r, record_key r = key) acc) as Hmem
          by (apply list_elem_of_filter; split; [congruence|done]).
        rewrite Hnil in Hmem. by apply not_elem_of_nil in Hmem.
      * by rewrite (filter_cons_False _ r) by done.
    + rewrite IH.
      * by rewrite <- app_assoc.
      * rewrite fmap_app, list_to_set_app_L, Hseen. simpl.
        by rewrite union_empty_r_L.
      * rewrite fmap_app. apply NoDup_app. split_and!; [done| |].
        -- intros k Hk Hk'. apply list_elem_of_singleton in Hk'. subst k.
           apply Hin. rewrite Hseen. by apply elem_of_list_to_set.
        -- apply NoDup_singleton.
Qed.

Lemma filter_key_length_NoDup (l : list ScholarRecord) :
  (∀ key, length (filter (λ r, record_key r = key) l) ≤ 1) →
  NoDup (record_key <$> l).
Proof.
  induction l as [|x l IH]; intros Hone; csimpl; [constructor|].
  apply NoDup_cons. split.
  - intros Hin. apply list_elem_of_fmap in Hin as (y & Hy & Hl).
    specialize (Hone (record_key x)).
    rewrite filter_cons_True in Hone by done. simpl in Hone.
    assert (y ∈ filter (λ r, record_key r = record_key x) l) as Hmem
      by (apply list_elem_of_filter; split; [congruence|done]).
    destruct (filter (λ r, record_key r = record_key x) l);
      [by apply not_elem_of_nil in Hmem|simpl in Hone; lia].
  - apply IH. intros key. specialize (Hone key).
    destruct (decide (record_key x = key)).
    + rewrite filter_cons_True in Hone by done. simpl in Hone. lia.
    + by rewrite filter_cons_False in Hone by done.
Qed.



(** ** Cache keys and repeated runs *)

(** When the cache holds the title of every record, the loop changes neither
    the cache nor the log. *)
Lemma enrich_loop_all_cached session (records : list ScholarRecord) w :
  (∀ r, r ∈ records → is_Some (cache w !! normalize_title (title r))) →
  (enrich_loop session records w).2 = w.
Proof.
  induction records as [|r rest IH]; intros Hall; simpl; [done|].
  unfold enrich_step.
  destruct (Hall r) as [info Hinfo]; [by left|].
  rewrite (query_crossref_hit _ _ _ _ Hinfo).
  specialize (IH (λ r' Hr', Hall r' (list_elem_of_further _ _ _ Hr'))).
  by destruct (enrich_loop session rest w) as [out w''].
Qed.

(** C5. Two titles with the same normalized form address the same cache
    entry: a lookup that hits returns the same value for both without a
    query, and after a lookup for the first, hit or miss, a lookup for the
    second returns the entry the first one got and sends nothing. *)
Theorem cache_lookup_by_normalized_title (t1 t2 : text) session session' w :
  normalize_title t1 = normalize_title t2 →
  cache w !! normalize_title t1 = cache w !! normalize_title t2
  ∧ (∀ info, cache w !! normalize_title t1 = Some info →
       query_crossref t1 session w = (info, w)
       ∧ query_crossref t2 session' w = (info, w))
  ∧ (∀ info1 w1, query_crossref t1 session w = (info1, w1) →
       query_crossref t2 session' w1 = (info1, w1)).
Proof.
  intros Hnorm. split_and!.
  - by rewrite Hnorm.
  - intros info Hhit. split; apply query_crossref_hit; congruence.
  - intros info1 w1 Hq.
    pose proof (query_crossref_post t1 session w) as Hpost.
    rewrite Hq in Hpost. destruct Hpost as (_ & Hinfo & _).
    apply query_crossref_hit. congruence.
Qed.

(** C6. When the cache file holds the normalized title of every record,
    [enrich_records] sends no query, leaves the cache file as it was and
    enriches every record from its cache entry. *)
Theorem cached_run_sends_no_query session (records : list ScholarRecord)
    (cache0 : gmap text Info.t) :
  (∀ r, r ∈ records → is_Some (cache0 !! normalize_title (title r))) →
  ∃ out,
    enrich_records session records (Holds (Object cache0))
    = Return (out, Holds (Object cache0), [])
    ∧ Forall2 (λ r e, ∃ info,
        cache0 !! normalize_title (title r) = Some info ∧ e = enrich r info)
      records out.
Proof.
  intros Hall. unfold enrich_records. simpl.
  pose proof (enrich_loop_all_cached session records
                {| cache := cache0; log := [] |} Hall) as Hsame.
  pose proof (enrich_loop_post session records
                {| cache := cache0; log := [] |}) as Hpost.
  destruct (enrich_loop _ _ _) as [out w']. simpl in Hsame. subst w'.
  destruct Hpost as (_ & Hout & _). by exists out.
Qed.

Lemma enriched_from_cache_unique (c : gmap text Info.t)
    (records : list ScholarRecord) (out1 out2 : list EnrichedRecord) :
  Forall2 (λ r e, ∃ info,
      c !! normalize_title (title r) = Some info ∧ e = enrich r info)
    records out1 →
  Forall2 (λ r e, ∃ info,
      c !! normalize_title (title r) = Some info ∧ e = enrich r info)
    records out2 →
  out1 = out2.
Proof.
  intros H1. revert out2.
  induction H1 as [|r e1 rs es1 (i1 & Hi1 & ->) _ IH]; intros out2 H2.
  - by apply Forall2_nil_inv_l in H2.
  - apply Forall2_cons_inv_l in H2 as (e2 & es2 & (i2 & Hi2 & ->) & H2 & ->).
    f_equal; [congruence|by apply IH].
Qed.

(** A second run over the same records, from the cache file that the first
    run saved, sends no query and gives the same enriched records. *)
Corollary second_run_sends_no_query session1 session2
    (records : list ScholarRecord) (file : File CacheDoc) :
  file ≠ Unreadable →
  ∃ out file1 sent1,
    enrich_records session1 records file = Return (out, file1, sent1)
    ∧ enrich_records session2 records file1 = Return (out, file1, []).
Proof.
  intros Hfile.
  destruct (enrich_records_returns session1 records file Hfile)
    as (cache0 & out & w1 & _ & Hloop & Hrun).
  exists out, (Holds (Object (cache w1))), (log w1). split; [done|].
  pose proof (enrich_loop_post session1 records
                {| cache := cache0; log := [] |}) as Hpost.
  rewrite Hloop in Hpost. destruct Hpost as (_ & Hout & _).
  unfold enrich_records. simpl.
  assert (∀ r, r ∈ records →
            is_Some (cache w1 !! normalize_title (title r))) as Hall.
  { intros r Hr. apply list_elem_of_lookup in Hr as [i Hi].
    destruct (Forall2_lookup_l _ _ _ _ _ Hout Hi) as (e & _ & info & Hinfo & _).
    by exists info. }
  pose proof (enrich_loop_all_cached session2 records
                {| cache := cache w1; log := [] |} Hall) as Hsame.
  pose proof (enrich_loop_post session2 records
                {| cache := cache w1; log := [] |}) as Hpost2.
  destruct (enrich_loop session2 _ _) as [out2 w2]. simpl in Hsame. subst w2.
  destruct Hpost2 as (_ & Hout2 & _). simpl in Hout2. simpl.
  by rewrite (enriched_from_cache_unique _ _ _ _ Hout2 Hout).
Qed.


(** ** Errors *)



(** ** Loading the stores *)

(** C8, as amended.  From a missing file and from one on which
    [json.loads] raises [JSONDecodeError], [load_crossref_cache] returns the
    empty mapping, [load_cached_records] the empty list and [load_json] of
    the OpenAlex script [None].  A loader raises exactly when reading or
    parsing the file raises another exception, and [load_cached_records]
    also when the document cannot be iterated.  What a loader returns from
    a parsed document is given too. *)
Theorem load_by_file_state :
  (∀ file : File CacheDoc,
     (file = Missing ∨ file = Malformed → load_crossref_cache file = Return ∅)
     ∧ ((∃ exc, load_crossref_cache file = Raise exc) ↔ file = Unreadable)
     ∧ (∀ cache, load_crossref_cache file = Return cache
          ↔ file = Holds (Object cache)
            ∨ (cache = ∅
               ∧ (file = Missing ∨ file = Malformed
                  ∨ file = Holds NotObject))))
  ∧ (∀ file : File RecordsDoc,
       (file = Missing ∨ file = Malformed → load_cached_records file = Return [])
       ∧ ((∃ exc, load_cached_records file = Raise exc)
          ↔ file = Unreadable ∨ file = Holds NotIterable)
       ∧ (∀ data, file = Holds (Iterable data) →
            load_cached_records file = Return (omap id data)))
  ∧ (∀ (A : Type) (path : File A),
       (path = Missing ∨ path = Malformed
        ↔ openalex_citations.load_json path = Return None)
       ∧ ((∃ exc, openalex_citations.load_json path = Raise exc)
          ↔ path = Unreadable)
       ∧ (∀ doc, path = Holds doc
            ↔ openalex_citations.load_json path = Return (Some doc))).
Proof.
  split_and!.
  - intros [| | |[data|]]; simpl; split_and!; try naive_solver.
  - intros [| | |[data|]]; simpl; split_and!; naive_solver.
  - intros A [| | |doc]; simpl; split_and!; naive_solver.
Qed.

End Facts.

(** C8, as stated, fails in two ways.  A file that does not parse can make
    a loader raise: this is so whenever reading or parsing it raises
    something else than [JSONDecodeError], as with bytes that are not
    UTF-8.  And from a missing file [load_json] of the OpenAlex script
    returns [None], not an empty record list. *)
Lemma load_unparsed_file_can_raise :
  (¬ ∀ file : File CacheDoc, (∀ doc, file ≠ Holds doc) →
       ∃ cache, load_crossref_cache file = Return cache)
  ∧ (¬ ∀ file : File RecordsDoc, (∀ doc, file ≠ Holds doc) →
         ∃ records, load_cached_records file = Return records)
  ∧ (¬ ∀ path : File RecordsDoc, (∀ doc, path ≠ Holds doc) →
         ∃ cached, openalex_citations.load_json path = Return cached)
  ∧ (¬ ∀ path : File RecordsDoc, path = Missing ∨ path = Malformed →
         openalex_citations.load_json path = Return (Some (Iterable []))).
Proof.
  split_and!.
  - intros Hclaim. by destruct (Hclaim Unreadable) as [cache Hload].
  - intros Hclaim. by destruct (Hclaim Unreadable) as [records Hload].
  - intros Hclaim. by destruct (Hclaim Unreadable) as [cached Hload].
  - intros Hclaim. specialize (Hclaim Missing (or_introl eq_refl)). done.
Qed.

(** * The properties on sample data *)

Section Witnesses.
Import Samples.
#[local] Existing Instance Latin1.runtime.

Example normalize_title_sample :
  normalize_title (T "  An Entropy-Stable  hybrid_scheme: (II) ")
  = T "an entropy stable hybrid_scheme ii".
Proof. vm_compute. reflexivity. Qed.

Example normalize_author_name_sample :
  normalize_author_name (T "  P.C.   Ma ") = T "pc ma".
Proof. vm_compute. reflexivity. Qed.

Example combined_records_sample :
  combined_records [2020; 2021]%Z scraped_2020_2021
  = [test_paper; own_paper; offline_paper].
Proof. vm_compute. reflexivity. Qed.

(** The end-to-end example: the scraped authors of the test paper give way
    to the Crossref author, and the original authors' own paper is dropped. *)
Example main_pipeline_sample :
  ∃ kept cache' ,
    main_pipeline crossref [2020; 2021]%Z scraped_2020_2021 Missing
    = Return (kept, Holds (Object cache'),
              [T "Test Paper"; T "Follow-up work"; T "Offline: a Study"])
    ∧ (scholar <$> kept) = [test_paper; offline_paper]
    ∧ (final_authors <$> kept) = [[T "John Smith"]; [T "A Writer"]]
    ∧ (author_source <$> kept) = [T "crossref"; T "scholar_truncated"]
    ∧ (crossref_status <$> kept) = [T "ok"; T "error"]
    ∧ Info.status <$> cache' !! T "follow up work" = Some (Some (T "no_match")).
Proof. vm_compute. eexists _, _. split_and!; reflexivity. Qed.

Example openalex_filter_sample :
  openalex_citations.should_exclude_self_citation [T "A Writer"; T "Peter Ma"]
  = true
  ∧ is_self_citation (enrich (scraped "t" None ["Peter Ma"] false) Info.empty)
    = false.
Proof. vm_compute. split; reflexivity. Qed.



Example aligned_sample :
  authors_crossref_affiliations (enrich test_paper mismatched_entry)
  = [[T "Stanford"]].
Proof. vm_compute. reflexivity. Qed.


Lemma cache_lookup_by_normalized_title_witness :
  normalize_title (T "Test Paper") = normalize_title (T "TEST paper.")
  ∧ ∀ info1 w1,
      query_crossref (T "Test Paper") crossref empty_world = (info1, w1) →
      query_crossref (T "TEST paper.") crossref w1 = (info1, w1).
Proof.
  split; [vm_compute; reflexivity|].
  apply (cache_lookup_by_normalized_title (T "Test Paper") (T "TEST paper.")
           crossref crossref empty_world).
  vm_compute. reflexivity.
Defined.

Lemma cached_run_sends_no_query_witness :
  (∀ r, r ∈ [offline_paper] →
     is_Some (({[ T "offline a study" := error_entry (T "timeout") ]}
               : gmap text Info.t) !! normalize_title (title r)))
  ∧ ∃ out,
      enrich_records crossref [offline_paper]
        (Holds (Object {[ T "offline a study" := error_entry (T "timeout") ]}))
      = Return (out,
                Holds (Object
                  {[ T "offline a study" := error_entry (T "timeout") ]}),
                [])
      ∧ Forall2 (λ r e, ∃ info,
          ({[ T "offline a study" := error_entry (T "timeout") ]}
           : gmap text Info.t) !! normalize_title (title r) = Some info
          ∧ e = enrich r info)
        [offline_paper] out.
Proof.
  assert (∀ r, r ∈ [offline_paper] →
     is_Some (({[ T "offline a study" := error_entry (T "timeout") ]}
               : gmap text Info.t) !! normalize_title (title r))) as Hall.
  { intros r Hr. apply list_elem_of_singleton in Hr as ->.
    vm_compute. eauto. }
  split; [exact Hall|].
  exact (cached_run_sends_no_query crossref [offline_paper] _ Hall).
Defined.


Lemma load_by_file_state_witness :
  load_crossref_cache Malformed = Return ∅
  ∧ load_cached_records Missing = Return []
  ∧ ((∃ exc, load_crossref_cache Unreadable = Raise exc)
     ↔ (Unreadable : File CacheDoc) = Unreadable)
  ∧ ((Missing : File RecordsDoc) = Missing
     ∨ (Missing : File RecordsDoc) = Malformed
     ↔ openalex_citations.load_json (Missing : File RecordsDoc) = Return None).
Proof.
  destruct load_by_file_state as (Hcache & Hrecords & Hjson).
  split_and!.
  - apply (proj1 (Hcache Malformed)). by right.
  - apply (proj1 (Hrecords Missing)). by left.
  - exact (proj1 (proj2 (Hcache Unreadable))).
  - exact (proj1 (Hjson RecordsDoc Missing)).
Defined.

Lemma self_citation_filter_exact_witness :
  isspace 32%N = true ∧ isspace 160%N = true
  ∧ (enrich test_paper Info.empty
     ∈ filter_self_citations
         [enrich own_paper Info.empty; enrich test_paper Info.empty]
     ↔ enrich test_paper Info.empty
       ∈ [enrich own_paper Info.empty; enrich test_paper Info.empty]
       ∧ ∀ a, a ∈ match final_authors (enrich test_paper Info.empty) with
                  | [] => authors_list (scholar (enrich test_paper Info.empty))
                  | _ :: _ => final_authors (enrich test_paper Info.empty)
                  end
           → spec_normalized_name a ∉ ORIGINAL_AUTHORS).
Proof.
  split_and!; [reflexivity|reflexivity|].
  assert (isspace 32%N = true) as H32 by reflexivity.
  assert (isspace 160%N = true) as H160 by reflexivity.
  exact (proj1 (proj2 (self_citation_filter_exact H32 H160)) _ _).
Defined.

Example spec_normalized_name_sample :
  spec_normalized_name (T "  P.C.  Ma ") = T "pc ma"
  ∧ filter_self_citations
      [enrich own_paper Info.empty; enrich test_paper Info.empty]
    = [enrich test_paper Info.empty].
Proof. vm_compute. done. Qed.


End Witnesses.

Section BoundaryWitness.
Import Samples.
#[local] Existing Instance boundary_runtime.


End BoundaryWitness.

(** * Further properties *)

Section ScrapingFacts.
Context `{PyRuntime} `{PyDigits} `{PyIntLimit}.

(** ** Whitespace *)

Lemma replace_nbsp_chars (s : text) (c : char) :
  c ∈ replace_nbsp s → c = 32%N ∨ c ∈ s.
Proof.
  unfold replace_nbsp. intros Hc.
  apply list_elem_of_fmap in Hc as (x & -> & Hx).
  destruct (x =? 160)%N; auto.
Qed.

Lemma sub_ws_runs_chars (b : bool) (s : text) (c : char) :
  c ∈ sub_ws_runs b s → c = 32%N ∨ (c ∈ s ∧ isspace c = false).
Proof.
  revert b. induction s as [|x s IH]; intros b; simpl.
  - by intros ?%not_elem_of_nil.
  - destruct (isspace x) eqn:Hx.
    + destruct b.
      * intros Hc. destruct (IH _ Hc) as [?|[? ?]]; [by left|right].
        split; [by right|done].
      * intros [->|Hc]%elem_of_cons; [by left|].
        destruct (IH _ Hc) as [?|[? ?]]; [by left|right].
        split; [by right|done].
    + intros [->|Hc]%elem_of_cons.
      * right. split; [by left|done].
      * destruct (IH _ Hc) as [?|[? ?]]; [by left|right].
        split; [by right|done].
Qed.

Lemma lstrip_suffix (s : text) : lstrip s `suffix_of` s.
Proof.
  induction s as [|c s IH]; simpl; [done|].
  destruct (isspace c); [by apply suffix_cons_r|done].
Qed.

Lemma lstrip_chars (s : text) (c : char) : c ∈ lstrip s → c ∈ s.
Proof.
  intros Hc. destruct (lstrip_suffix s) as [k ->].
  apply elem_of_app. by right.
Qed.

Lemma elem_of_rev {A} (l : list A) (x : A) : x ∈ rev l ↔ x ∈ l.
Proof. rewrite !list_elem_of_In. symmetry. apply in_rev. Qed.

Lemma strip_chars (s : text) (c : char) : c ∈ strip s → c ∈ s.
Proof.
  unfold strip. rewrite elem_of_rev. intros Hc%lstrip_chars.
  rewrite elem_of_rev in Hc. by apply lstrip_chars.
Qed.

(** A character of a whitespace-normalized text is a space or a character
    of the input that is not whitespace. *)
Lemma normalize_whitespace_chars (s : text) (c : char) :
  c ∈ normalize_whitespace s → c = 32%N ∨ (c ∈ s ∧ isspace c = false).
Proof.
  unfold normalize_whitespace. intros Hc%strip_chars.
  apply sub_ws_runs_chars in Hc as [?|[Hc Hsp]]; [by left|].
  apply replace_nbsp_chars in Hc as [?|?]; auto.
Qed.

Lemma sub_ws_runs_head (s : text) (c : char) :
  head (sub_ws_runs true s) = Some c → isspace c = false.
Proof.
  induction s as [|x s IH]; simpl; [done|].
  destruct (isspace x) eqn:Hx; [done|]. simpl. congruence.
Qed.

Lemma sub_ws_runs_adjacent (b : bool) (s l1 l2 : text) (c d : char) :
  sub_ws_runs b s = l1 ++ c :: d :: l2 →
  isspace c = true → isspace d = false.
Proof.
  revert b l1. induction s as [|x s IH]; intros b l1; simpl.
  - by destruct l1.
  - destruct (isspace x) eqn:Hx.
    + destruct b; [by apply IH|].
      destruct l1 as [|y l1]; simpl.
      * intros [= <- Hrest] _. apply (sub_ws_runs_head s). by rewrite Hrest.
      * intros [= _ Hrest]. by eapply IH.
    + destruct l1 as [|y l1]; simpl.
      * intros [= <- _]. congruence.
      * intros [= _ Hrest]. by eapply IH.
Qed.

Lemma lstrip_head (s : text) (c : char) :
  head (lstrip s) = Some c → isspace c = false.
Proof.
  induction s as [|x s IH]; simpl; [done|].
  destruct (isspace x) eqn:Hx; [done|]. simpl. congruence.
Qed.

Lemma lstrip_id (s : text) :
  (∀ c, head s = Some c → isspace c = false) → lstrip s = s.
Proof. destruct s as [|x s]; simpl; [done|]. intros Hh. by rewrite Hh. Qed.

Lemma head_rev {A} (l : list A) : head (rev l) = last l.
Proof.
  induction l as [|x l IH] using rev_ind; [done|].
  by rewrite rev_unit, last_snoc.
Qed.

Lemma last_rev {A} (l : list A) : last (rev l) = head l.
Proof. by rewrite <- head_rev, rev_involutive. Qed.

(** The stripped text is the input without a prefix and a suffix. *)
Lemma strip_infix (s : text) : ∃ k1 k2, s = k1 ++ strip s ++ k2.
Proof.
  unfold strip. destruct (lstrip_suffix s) as [k1 Hs].
  destruct (lstrip_suffix (rev (lstrip s))) as [k2 Hr].
  exists k1, (rev k2). rewrite Hs at 1. f_equal.
  rewrite <- (rev_involutive (lstrip s)), Hr at 1. by rewrite rev_app_distr.
Qed.

Lemma strip_head (s : text) (c : char) :
  head (strip s) = Some c → isspace c = false.
Proof.
  unfold strip. intros Hc.
  destruct (lstrip_suffix (rev (lstrip s))) as [k2 Hr].
  apply (f_equal (@rev char)) in Hr.
  rewrite rev_involutive, rev_app_distr in Hr.
  apply (lstrip_head s). rewrite Hr.
  by destruct (rev (lstrip (rev (lstrip s)))).
Qed.

Lemma strip_last (s : text) (c : char) :
  last (strip s) = Some c → isspace c = false.
Proof. unfold strip. rewrite last_rev. apply lstrip_head. Qed.

Lemma normalize_whitespace_shape (s : text) :
  whitespace_normal (normalize_whitespace s).
Proof.
  split_and!.
  - intros c Hc Hsp.
    destruct (normalize_whitespace_chars _ _ Hc) as [?|[_ ?]];
      [done|congruence].
  - apply strip_head.
  - apply strip_last.
  - unfold normalize_whitespace. intros l1 c d l2 Heq.
    destruct (strip_infix (sub_ws_runs false (replace_nbsp s)))
      as (k1 & k2 & Hin).
    rewrite Heq in Hin.
    apply (sub_ws_runs_adjacent false (replace_nbsp s) (k1 ++ l1) (l2 ++ k2)).
    rewrite Hin. by rewrite <- !app_assoc.
Qed.

(** X1. The result of [normalize_whitespace] has the normal shape. *)
Theorem normalize_whitespace_normal (s : text) :
  whitespace_normal (normalize_whitespace s).
Proof. apply normalize_whitespace_shape. Qed.

Lemma sub_ws_runs_id (b : bool) (s : text) :
  (∀ c, c ∈ s → isspace c = true → c = 32%N) →
  (b = true → ∀ c, head s = Some c → isspace c = false) →
  (∀ l1 c d l2, s = l1 ++ c :: d :: l2 →
     isspace c = true → isspace d = false) →
  sub_ws_runs b s = s.
Proof.
  revert b. induction s as [|x s IH]; intros b Hws Hhead Hadj; simpl; [done|].
  assert (∀ l1 c d l2, s = l1 ++ c :: d :: l2 →
            isspace c = true → isspace d = false) as Hadj'.
  { intros l1 c d l2 ->. by apply (Hadj (x :: l1) c d l2). }
  assert (∀ c, c ∈ s → isspace c = true → c = 32%N) as Hws'.
  { intros c Hc. apply Hws. by right. }
  destruct (isspace x) eqn:Hx.
  - destruct b; [by rewrite (Hhead eq_refl x) in Hx|].
    rewrite (Hws x) by (done || by left). f_equal. apply IH; [done| |done].
    intros _ c Hc. destruct s as [|y s]; [done|]. simpl in Hc.
    injection Hc as ->. by apply (Hadj [] x c s).
  - f_equal. by apply IH.
Qed.

(** A text of the normal shape is a fixed point. *)
Lemma normalize_whitespace_fixed (s : text) :
  isspace 160%N = true → whitespace_normal s → normalize_whitespace s = s.
Proof.
  intros H160 (Hws & Hhead & Hlast & Hadj). unfold normalize_whitespace.
  assert (replace_nbsp s = s) as ->.
  { unfold replace_nbsp. rewrite <- (list_fmap_id s) at 2.
    apply list_fmap_ext. intros i c Hc. simpl.
    destruct (N.eqb_spec c 160) as [->|]; [|done].
    apply list_elem_of_lookup_2 in Hc. by apply Hws in Hc. }
  rewrite sub_ws_runs_id by done.
  unfold strip. rewrite (lstrip_id s) by done.
  rewrite lstrip_id; [apply rev_involutive|].
  intros c. rewrite head_rev. apply Hlast.
Qed.

(** X2. [normalize_whitespace] is idempotent. *)
Theorem normalize_whitespace_idempotent (s : text) :
  isspace 160%N = true →
  normalize_whitespace (normalize_whitespace s) = normalize_whitespace s.
Proof.
  intros H160. apply normalize_whitespace_fixed; [done|].
  apply normalize_whitespace_shape.
Qed.

(** ** Normalized titles and names *)

Lemma blank_punct_chars (s : text) (c : char) :
  c ∈ blank_punct s → c = 32%N ∨ (c ∈ s ∧ isword c || isspace c = true).
Proof.
  unfold blank_punct. intros (x & -> & Hx)%list_elem_of_fmap.
  destruct (isword x || isspace x) eqn:Hcls; auto.
Qed.

Lemma delete_punct_chars (s : text) (c : char) :
  c ∈ delete_punct s → c ∈ s ∧ isword c || isspace c = true.
Proof.
  unfold delete_punct. intros [Hcls Hc]%list_elem_of_filter.
  split; [done|]. by apply Is_true_true.
Qed.

Lemma normalized_chars_cases (s : text) (c : char) :
  (c ∈ normalize_title s → c = 32%N ∨ isword c = true)
  ∧ (c ∈ normalize_author_name s → c = 32%N ∨ isword c = true).
Proof.
  split; intros Hc;
    apply normalize_whitespace_chars in Hc as [?|[Hc Hsp]]; try by left.
  - apply blank_punct_chars in Hc as [?|[_ Hcls]]; [by left|right].
    rewrite Hsp, orb_false_r in Hcls. done.
  - apply delete_punct_chars in Hc as [_ Hcls]. right.
    rewrite Hsp, orb_false_r in Hcls. done.
Qed.

(** X3. A normalized title holds word characters and spaces only; so does a
    normalized author name. *)
Theorem normalized_chars (s : text) (c : char) :
  (c ∈ normalize_title s → c = 32%N ∨ isword c = true)
  ∧ (c ∈ normalize_author_name s → c = 32%N ∨ isword c = true).
Proof. apply normalized_chars_cases. Qed.





(** ** Author lines *)

Lemma split_on_nonempty (sep : char) (s : text) : split_on sep s ≠ [].
Proof.
  destruct s as [|c s]; simpl; [done|].
  destruct (c =? sep)%N; [done|]. by destruct (split_on sep s).
Qed.

Lemma split_on_chars (sep : char) (s part : text) (c : char) :
  part ∈ split_on sep s → c ∈ part → c ∈ s ∧ c ≠ sep.
Proof.
  revert part. induction s as [|x s IH]; intros part; simpl.
  - intros ->%list_elem_of_singleton. by intros ?%not_elem_of_nil.
  - destruct (N.eqb_spec x sep) as [->|Hne].
    + intros [->|Hpart]%elem_of_cons; [by intros ?%not_elem_of_nil|].
      intros Hc. destruct (IH _ Hpart Hc). split; [by right|done].
    + destruct (split_on sep s) as [|p ps] eqn:Hsplit.
      * intros ->%list_elem_of_singleton [->|?%not_elem_of_nil]%elem_of_cons;
          [|done]. split; [by left|done].
      * intros [->|Hpart]%elem_of_cons.
        -- intros [->|Hc]%elem_of_cons; [split; [by left|done]|].
           destruct (IH p) as [? ?]; [by left|done|]. split; [by right|done].
        -- intros Hc. destruct (IH part) as [? ?]; [by right|done|].
           split; [by right|done].
Qed.

Lemma before_first_chars (sep : char) (s : text) (c : char) :
  c ∈ before_first sep s → c ∈ s ∧ c ≠ sep.
Proof.
  induction s as [|x s IH]; simpl; [by intros ?%not_elem_of_nil|].
  destruct (N.eqb_spec x sep) as [->|Hne]; [by intros ?%not_elem_of_nil|].
  intros [->|Hc]%elem_of_cons; [split; [by left|done]|].
  destruct (IH Hc). split; [by right|done].
Qed.

Lemma before_first_app (sep : char) (a b : text) :
  sep ∉ a → before_first sep (a ++ sep :: b) = a.
Proof.
  induction a as [|x a IH]; simpl; intros Hsep.
  - by rewrite N.eqb_refl.
  - apply not_elem_of_cons in Hsep as [Hne Hsep].
    destruct (N.eqb_spec x sep) as [->|_]; [done|]. by rewrite IH.
Qed.

Lemma before_first_none (sep : char) (a : text) :
  sep ∉ a → before_first sep a = a.
Proof.
  induction a as [|x a IH]; simpl; intros Hsep; [done|].
  apply not_elem_of_cons in Hsep as [Hne Hsep].
  destruct (N.eqb_spec x sep) as [->|_]; [done|]. by rewrite IH.
Qed.

Lemma parse_authors_name_shape (authors_raw name : text) :
  name ∈ parse_authors authors_raw →
  name ≠ [] ∧ name ≠ ELLIPSIS ∧ name ≠ DOTS
  ∧ (44%N ∉ name) ∧ (45%N ∉ name)
  ∧ whitespace_normal name.
Proof.
  unfold parse_authors. destruct (truthy authors_raw);
    [|by intros ?%not_elem_of_nil].
  intros [(Htruthy & Hell & Hdots) Hname]%list_elem_of_filter.
  apply list_elem_of_fmap in Hname as (cand & -> & Hcand).
  assert (∀ c, c ∈ normalize_whitespace cand → c ≠ 44%N ∧ c ≠ 45%N) as Hchars.
  { intros c Hc. apply normalize_whitespace_chars in Hc as [->|[Hc _]]; [done|].
    destruct (split_on_chars _ _ _ _ Hcand Hc) as [Hseg Hcomma].
    by destruct (before_first_chars _ _ _ Hseg) as [_ Hdash]. }
  split_and!; try done.
  - by destruct (normalize_whitespace cand).
  - intros Hin. by destruct (Hchars _ Hin).
  - intros Hin. by destruct (Hchars _ Hin).
  - apply normalize_whitespace_shape.
Qed.

(** X6. Every name that [parse_authors] returns is non-empty, is none of the
    ellipsis markers, holds neither a comma nor a dash, and has the normal
    whitespace shape. *)
Theorem parse_authors_names (authors_raw name : text) :
  name ∈ parse_authors authors_raw →
  name ≠ [] ∧ name ≠ ELLIPSIS ∧ name ≠ DOTS
  ∧ (44%N ∉ name) ∧ (45%N ∉ name)
  ∧ whitespace_normal name.
Proof. apply parse_authors_name_shape. Qed.

(** X7. Nothing after the first dash reaches the author list. *)
Theorem parse_authors_ignores_after_dash (a b : text) :
  45%N ∉ a → parse_authors (a ++ 45%N :: b) = parse_authors a.
Proof.
  intros Hdash. unfold parse_authors.
  rewrite before_first_app by done.
  destruct a as [|x a]; [|by rewrite before_first_none].
  simpl. unfold normalize_whitespace. simpl.
  rewrite filter_cons_False; [done|]. by intros [? _].
Qed.

(** ** Years *)

Lemma century_range (a b : char) (h : Z) :
  century a b = Some h → (19 ≤ h ≤ 21)%Z.
Proof. unfold century. repeat case_match; intros [= <-]; lia. Qed.

Lemma year_at_range (s : text) (y : Z) :
  year_at s = Some y → (1900 ≤ y ≤ 2199)%Z.
Proof.
  unfold year_at. destruct s as [|a [|b [|c [|d s]]]]; try done.
  destruct (century a b) as [h|] eqn:Hh; [|done].
  destruct (digit_value c) as [x|] eqn:Hx; [|done].
  destruct (digit_value d) as [z|] eqn:Hz; [|done].
  intros [= <-]. apply century_range in Hh.
  apply digit_value_range in Hx, Hz. lia.
Qed.

Lemma extract_year_spec (meta : text) :
  match extract_year meta with
  | Some y =>
      (1900 ≤ y ≤ 2199)%Z
      ∧ ∃ k, year_at (drop k meta) = Some y
             ∧ ∀ j, j < k → year_at (drop j meta) = None
  | None => ∀ k, year_at (drop k meta) = None
  end.
Proof.
  induction meta as [|a meta IH].
  - simpl. intros k. by rewrite drop_nil.
  - cbn [extract_year].
    destruct (year_at (a :: meta)) as [y|] eqn:Hy.
    + split; [by eapply year_at_range|].
      exists 0. split; [done|]. intros j Hj. lia.
    + destruct (extract_year meta) as [y|].
      * destruct IH as (Hrange & k & Hk & Hleft). split; [done|].
        exists (S k). split; [done|].
        intros [|j] Hj; [done|]. apply Hleft. lia.
      * intros [|k]; [done|]. apply IH.
Qed.

(** X9. [extract_year] gives the year pattern at the leftmost position where it
    matches, a year from 1900 to 2199, and [None] when it matches nowhere. *)
Theorem extract_year_leftmost (meta : text) :
  match extract_year meta with
  | Some y =>
      (1900 ≤ y ≤ 2199)%Z
      ∧ ∃ k, year_at (drop k meta) = Some y
             ∧ ∀ j, j < k → year_at (drop j meta) = None
  | None => ∀ k, year_at (drop k meta) = None
  end.
Proof. apply extract_year_spec. Qed.

(** ** Author lines, back and forth *)

Lemma split_on_none (sep : char) (p : text) :
  sep ∉ p → split_on sep p = [p].
Proof.
  induction p as [|x p IH]; simpl; intros Hsep; [done|].
  apply not_elem_of_cons in Hsep as [Hne Hsep].
  destruct (N.eqb_spec x sep) as [->|_]; [done|]. by rewrite IH.
Qed.

Lemma split_on_app (sep : char) (p t : text) :
  sep ∉ p → split_on sep (p ++ sep :: t) = p :: split_on sep t.
Proof.
  induction p as [|x p IH]; simpl; intros Hsep.
  - by rewrite N.eqb_refl.
  - apply not_elem_of_cons in Hsep as [Hne Hsep].
    destruct (N.eqb_spec x sep) as [->|_]; [done|]. by rewrite IH.
Qed.

Lemma split_on_join (n : text) (rest : list text) :
  Forall (λ p, 44%N ∉ p) (n :: rest) →
  split_on 44%N (join (T ", ") (n :: rest)) = n :: (cons 32%N <$> rest).
Proof.
  revert n. induction rest as [|q rest IH]; intros n Hall.
  - simpl. apply split_on_none. by apply Forall_inv in Hall.
  - apply Forall_cons in Hall as [Hn Hall].
    change (join (T ", ") (n :: q :: rest))
      with (n ++ 44%N :: 32%N :: join (T ", ") (q :: rest)).
    rewrite split_on_app by done. f_equal.
    change (split_on 44%N (32%N :: ?t))
      with (match split_on 44%N t with
            | [] => [[32%N]] | part :: parts => (32%N :: part) :: parts end).
    by rewrite IH.
Qed.

Lemma join_chars (rest : list text) (n : text) (c : char) :
  c ∈ join (T ", ") (n :: rest) →
  c = 44%N ∨ c = 32%N ∨ ∃ p, p ∈ n :: rest ∧ c ∈ p.
Proof.
  revert n. induction rest as [|q rest IH]; intros n.
  - simpl. intros Hc. right. right. exists n. split; [by left|done].
  - change (join (T ", ") (n :: q :: rest))
      with (n ++ 44%N :: 32%N :: join (T ", ") (q :: rest)).
    rewrite elem_of_app, !elem_of_cons.
    intros [Hc|[->|[->|Hc]]]; [|by left|by right; left|].
    + right. right. exists n. split; [by left|done].
    + destruct (IH _ Hc) as [?|[?|(p & Hp & Hcp)]]; [by left|by right; left|].
      right. right. exists p. split; [by right|done].
Qed.

Lemma normalize_whitespace_leading_space (q : text) :
  isspace 32%N = true → isspace 160%N = true → whitespace_normal q →
  normalize_whitespace (32%N :: q) = q.
Proof.
  intros H32 H160 (Hws & Hhead & Hlast & Hadj). unfold normalize_whitespace.
  assert (replace_nbsp q = q) as Hq.
  { unfold replace_nbsp. rewrite <- (list_fmap_id q) at 2.
    apply list_fmap_ext. intros i c Hc. simpl.
    destruct (N.eqb_spec c 160) as [->|]; [|done].
    apply list_elem_of_lookup_2 in Hc. by apply Hws in Hc. }
  change (replace_nbsp (32%N :: q)) with (32%N :: replace_nbsp q).
  rewrite Hq. simpl. rewrite H32.
  rewrite sub_ws_runs_id by done.
  unfold strip. simpl. rewrite H32. rewrite (lstrip_id q) by done.
  rewrite lstrip_id; [apply rev_involutive|].
  intros c. rewrite head_rev. apply Hlast.
Qed.

(** X8. A line of well-formed names joined by comma and space parses back to
    the names.  Well-formed is what [parse_authors] guarantees of its
    results: non-empty, not an ellipsis marker, no comma, no dash, normal
    whitespace. *)
Theorem parse_authors_join (names : list text) :
  isspace 32%N = true → isspace 160%N = true →
  Forall (λ n, n ≠ [] ∧ n ≠ ELLIPSIS ∧ n ≠ DOTS
               ∧ (44%N ∉ n) ∧ (45%N ∉ n) ∧ whitespace_normal n) names →
  parse_authors (join (T ", ") names) = names.
Proof.
  intros H32 H160 Hall. destruct names as [|n rest]; [done|].
  unfold parse_authors.
  assert (truthy (join (T ", ") (n :: rest)) = true) as ->.
  { apply Forall_inv in Hall as (Hn & _).
    destruct n; [done|]. by destruct rest. }
  rewrite before_first_none.
  2:{ intros Hin. apply join_chars in Hin as [?|[?|(p & Hp & Hin)]]; try done.
      rewrite Forall_forall in Hall. by destruct (Hall p Hp) as (_&_&_&_&?&_). }
  rewrite split_on_join.
  2:{ eapply Forall_impl; [exact Hall|]. by intros p (_&_&_&?&_). }
  csimpl.
  apply Forall_cons in Hall as [Hn Hrest].
  rewrite normalize_whitespace_fixed by (done || by destruct Hn as (_&_&_&_&_&?)).
  rewrite filter_cons_True by (by destruct Hn as (?&?&?&_); destruct n).
  f_equal. clear Hn. induction Hrest as [|q rest Hq _ IH]; [done|].
  csimpl.
  rewrite normalize_whitespace_leading_space
    by (done || by destruct Hq as (_&_&_&_&_&?)).
  rewrite filter_cons_True by (by destruct Hq as (?&?&?&_); destruct q).
  by rewrite IH.
Qed.

(** ** Scraped records *)

(** X10. Every record that [fetch_page_entries] builds has equal [authors_raw]
    and [raw_meta], the page index of the offset, a title and a snippet of
    the normal whitespace shape, a year from 1900 to 2199 if any, and author
    names that are non-empty and hold neither a comma nor a dash; and there
    are at most as many records as entries. *)
Theorem fetch_page_entries_records (page : Page) (start : nat) :
  length (fetch_page_entries page start).1 ≤ length (entries page)
  ∧ Forall (λ r,
      authors_raw r = raw_meta r
      ∧ page_index r = Z.of_nat (start / 10)
      ∧ whitespace_normal (title r)
      ∧ whitespace_normal (snippet r)
      ∧ (∀ y, year r = Some y → (1900 ≤ y ≤ 2199)%Z)
      ∧ Forall (λ name, name ≠ [] ∧ (44%N ∉ name) ∧ (45%N ∉ name))
          (authors_list r))
    (fetch_page_entries page start).1.
Proof.
  unfold fetch_page_entries. simpl. split.
  - induction (entries page) as [|h hs IH]; [done|]. csimpl.
    destruct (h ≫= entry_record start); simpl; lia.
  - apply Forall_forall. intros r Hr.
    apply list_elem_of_omap in Hr as (h & _ & Hr).
    destruct h as [h|]; [|done]. simpl in Hr. unfold entry_record in Hr.
    destruct (gs_rt h) as [[|c t]|]; try done. injection Hr as <-. simpl.
    split_and!; try done.
    + apply normalize_whitespace_shape.
    + apply normalize_whitespace_shape.
    + intros y Hy. pose proof (extract_year_spec
        (normalize_whitespace (default [] (gs_a h)))) as Hspec.
      rewrite Hy in Hspec. by destruct Hspec.
    + apply Forall_forall. intros name Hname.
      by destruct (parse_authors_name_shape _ _ Hname) as (?&_&_&?&?&_).
Qed.

(** ** Pagination *)

Lemma scrape_pages_requests (fuel : nat)
    (fetch : nat → list ScholarRecord * option Z) (start : nat)
    (total_expected : option Z) (collected : list ScholarRecord)
    (requested : list nat) (result : list ScholarRecord) (asked : list nat) :
  scrape_pages fuel fetch start total_expected collected requested
  = Some (result, asked) →
  ∃ k, 0 < k ≤ fuel
    ∧ asked = requested ++ ((λ i, start + 10 * i) <$> seq 0 k)
    ∧ result
      = collected
        ++ mjoin ((λ i, (fetch (start + 10 * i)).1) <$> seq 0 k).
Proof.
  revert start total_expected collected requested.
  induction fuel as [|fuel IH];
    intros start total_expected collected requested; cbn [scrape_pages];
    [done|].
  destruct (fetch start) as [records total] eqn:Hfetch.
  set (te := match total_expected, total with
             | None, Some n => if decide (n = 0%Z) then None else Some n
             | _, _ => total_expected
             end).
  assert (∀ k, 0 < k ≤ fuel →
    (requested ++ [start]) ++ ((λ i, start + 10 + 10 * i) <$> seq 0 k)
    = requested ++ ((λ i, start + 10 * i) <$> seq 0 (S k))
    ∧ (collected ++ records)
      ++ mjoin ((λ i, (fetch (start + 10 + 10 * i)).1) <$> seq 0 k)
      = collected
        ++ mjoin ((λ i, (fetch (start + 10 * i)).1) <$> seq 0 (S k))) as Hshift.
  { intros k _. rewrite <- !app_assoc, <- (cons_seq k 0), !fmap_cons.
    change (mjoin (?x :: ?l)) with (x ++ mjoin l).
    rewrite Nat.mul_0_r, Nat.add_0_r, Hfetch.
    rewrite <- !fmap_S_seq, <- !list_fmap_compose.
    split; [do 2 f_equal|do 3 f_equal]; apply list_fmap_ext; intros ? i _;
      unfold compose; [lia|do 2 f_equal; lia]. }
  assert (Some (collected ++ records, requested ++ [start])
          = Some (result, asked) →
          ∃ k, 0 < k ≤ S fuel
            ∧ asked = requested ++ ((λ i, start + 10 * i) <$> seq 0 k)
            ∧ result
              = collected
                ++ mjoin ((λ i, (fetch (start + 10 * i)).1) <$> seq 0 k))
    as Hstop.
  { intros [= <- <-]. exists 1. split; [lia|].
    change (seq 0 1) with [0]. rewrite !list_fmap_singleton.
    change (mjoin [?x]) with (x ++ []).
    replace (start + 10 * 0) with start by lia.
    by rewrite Hfetch, app_nil_r. }
  destruct records as [|r records]; cbn [truthy].
  - intros [= <- <-]. exists 1. split; [lia|].
    change (seq 0 1) with [0]. rewrite !list_fmap_singleton.
    change (mjoin [?x]) with (x ++ []).
    replace (start + 10 * 0) with start by lia.
    by rewrite Hfetch, !app_nil_r.
  - assert (scrape_pages fuel fetch (start + 10) te
              (collected ++ r :: records) (requested ++ [start])
            = Some (result, asked) →
            ∃ k, 0 < k ≤ S fuel
              ∧ asked = requested ++ ((λ i, start + 10 * i) <$> seq 0 k)
              ∧ result
                = collected
                  ++ mjoin ((λ i, (fetch (start + 10 * i)).1) <$> seq 0 k))
      as Hgo.
    { intros (k & Hk & -> & ->)%IH. exists (S k). split; [lia|].
      by destruct (Hshift k Hk). }
    destruct te as [n|]; [|exact Hgo].
    case_decide; [exact Hstop|exact Hgo].
Qed.

(** X11. The records collected for a scope are the records of the pages asked
    for, in order, and the pages asked for are those at the offsets 0, 10,
    20, ... without a gap. *)
Theorem scrape_scope_pages (fuel : nat) (site : Scholar) (scope : option Z)
    (collected : list ScholarRecord) (asked : list nat) :
  scrape_scope fuel site scope = Some (collected, asked) →
  ∃ k, 0 < k ≤ fuel
    ∧ asked = (λ i, 10 * i) <$> seq 0 k
    ∧ collected
      = mjoin ((λ start, (fetch_page_entries (site scope start) start).1)
               <$> asked).
Proof.
  unfold scrape_scope. intros (k & Hk & -> & ->)%scrape_pages_requests.
  exists k. split; [done|]. simpl. split; [done|].
  by rewrite <- list_fmap_compose.
Qed.

Lemma scrape_pages_total (fetch : nat → list ScholarRecord * option Z)
    (n : Z) (fuel start : nat) (collected : list ScholarRecord)
    (requested : list nat) :
  (Z.of_nat start < n)%Z → (n - Z.of_nat start ≤ 10 * Z.of_nat fuel)%Z →
  ∃ result asked,
    scrape_pages fuel fetch start (Some n) collected requested
    = Some (result, asked)
    ∧ ∃ new, asked = requested ++ new
        ∧ length new ≤ fuel
        ∧ Forall (λ s, (Z.of_nat s < n)%Z) new.
Proof.
  revert start collected requested.
  induction fuel as [|fuel IH]; intros start collected requested Hlt Hfuel;
    [lia|].
  cbn [scrape_pages]. destruct (fetch start) as [records total].
  destruct records as [|r records]; cbn [truthy].
  - eexists _, _. split; [done|]. exists [start].
    split_and!; [done|simpl; lia|by constructor].
  - case_decide as Hstop.
    + eexists _, _. split; [done|]. exists [start].
      split_and!; [done|simpl; lia|by constructor].
    + destruct (IH (start + 10) (collected ++ r :: records)
                  (requested ++ [start]))
        as (result & asked & -> & new & -> & Hlen & Hnew); [lia|lia|].
      eexists _, _. split; [done|]. exists (start :: new).
      split_and!; [by rewrite <- app_assoc|simpl; lia|by constructor].
Qed.

(** X12. When the first page announces a total, the loop ends within one page
    per ten announced results and never asks for an offset at or beyond the
    total. *)
Theorem scrape_scope_bounded (site : Scholar) (scope : option Z) (n : Z)
    (fuel : nat) :
  total_results (summary (site scope 0)) = Some n →
  (0 < n)%Z → (n ≤ 10 * Z.of_nat fuel)%Z →
  ∃ collected asked,
    scrape_scope fuel site scope = Some (collected, asked)
    ∧ length asked ≤ fuel
    ∧ Forall (λ start, (Z.of_nat start < n)%Z) asked.
Proof.
  intros Htotal Hpos Hfuel. unfold scrape_scope.
  destruct fuel as [|fuel]; [lia|]. cbn [scrape_pages].
  destruct (fetch_page_entries (site scope 0) 0) as [records total] eqn:Hpage.
  assert (total = Some n) as ->.
  { unfold fetch_page_entries in Hpage. injection Hpage as _ <-.
    exact Htotal. }
  rewrite decide_False by lia.
  destruct records as [|r records]; cbn [truthy].
  - eexists _, _. split; [done|]. split; [simpl; lia|]. by repeat constructor.
  - case_decide as Hstop.
    + eexists _, _. split; [done|]. split; [simpl; lia|].
      by repeat constructor.
    + destruct (scrape_pages_total
                  (λ start, fetch_page_entries (site scope start) start)
                  n fuel (0 + 10) ([] ++ r :: records) ([] ++ [0]))
        as (result & asked & -> & new & -> & Hlen & Hnew); [lia|lia|].
      eexists _, _. split; [done|]. split; [simpl; lia|].
      constructor; [lia|done].
Qed.

Lemma scrape_pages_empty_page (fetch : nat → list ScholarRecord * option Z)
    (k fuel start : nat) (total_expected : option Z)
    (collected : list ScholarRecord) (requested : list nat) :
  k < fuel → (fetch (start + 10 * k)).1 = [] →
  ∃ result asked,
    scrape_pages fuel fetch start total_expected collected requested
    = Some (result, asked)
    ∧ length asked ≤ length requested + k + 1.
Proof.
  revert fuel start total_expected collected requested.
  induction k as [|k IH];
    intros fuel start total_expected collected requested Hfuel Hempty;
    (destruct fuel as [|fuel]; [lia|]); cbn [scrape_pages].
  - replace (start + 10 * 0) with start in Hempty by lia.
    destruct (fetch start) as [records total]. simpl in Hempty. subst records.
    cbn [truthy]. eexists _, _. split; [done|]. rewrite length_app. simpl. lia.
  - destruct (fetch start) as [records total].
    set (te := match total_expected, total with
               | None, Some n => if decide (n = 0%Z) then None else Some n
               | _, _ => total_expected
               end).
    destruct records as [|r records]; cbn [truthy].
    { eexists _, _. split; [done|]. rewrite length_app. simpl. lia. }
    assert (∃ result asked,
      scrape_pages fuel fetch (start + 10) te (collected ++ r :: records)
        (requested ++ [start]) = Some (result, asked)
      ∧ length asked ≤ length requested + S k + 1) as Hgo.
    { destruct (IH fuel (start + 10) te (collected ++ r :: records)
                  (requested ++ [start]))
        as (result & asked & Hrun & Hlen); [lia| |].
      - by replace (start + 10 + 10 * k) with (start + 10 * S k) by lia.
      - exists result, asked. split; [done|].
        rewrite length_app in Hlen. simpl in Hlen. lia. }
    destruct te as [n|]; [|exact Hgo].
    case_decide; [|exact Hgo].
    eexists _, _. split; [done|]. rewrite length_app. simpl. lia.
Qed.

(** X13. Without an announced total the loop still ends at the first page that
    has no record, if not before. *)
Theorem scrape_scope_ends_at_empty_page (site : Scholar) (scope : option Z)
    (k fuel : nat) :
  (fetch_page_entries (site scope (10 * k)) (10 * k)).1 = [] →
  k < fuel →
  ∃ collected asked,
    scrape_scope fuel site scope = Some (collected, asked)
    ∧ length asked ≤ k + 1.
Proof.
  intros Hempty Hfuel. unfold scrape_scope.
  destruct (scrape_pages_empty_page
              (λ start, fetch_page_entries (site scope start) start)
              k fuel 0 None [] []) as (result & asked & Hrun & Hlen);
    [done|done|].
  exists result, asked. split; [done|]. simpl in Hlen. lia.
Qed.

End ScrapingFacts.

Section RunFacts.
Context `{PyRuntime}.
Implicit Types (w : World) (session : Session) (info : Info.t).
Implicit Types (r : ScholarRecord) (e : EnrichedRecord).

(** ** Entries written by a query *)

Lemma best_match_nonneg norm (items : list Work.t) :
  (0 <= (best_match norm items).2)%Q.
Proof.
  unfold best_match.
  pose proof (best_fold_spec norm items None 0%Q) as Hfold.
  destruct (foldl _ _ items) as [b' s']. by destruct Hfold as (Hle & _).
Qed.

Lemma match_entry_written norm (items : list Work.t) :
  query_written (match_entry norm items).
Proof.
  unfold match_entry. pose proof (best_match_nonneg norm items) as Hpos.
  pose proof (best_match_spec norm items) as Hspec.
  destruct (best_match norm items) as [[item|] s]; simpl in *.
  - destruct (Qltb s float_0_6) eqn:Hlt.
    + right. left. exists s. by apply Qltb_lt in Hlt.
    + right. right. exists item, s. by apply Qltb_ge in Hlt.
  - destruct Hspec as [-> _]. right. left. exists 0%Q. done.
Qed.

Lemma query_crossref_miss_written title session w :
  cache w !! normalize_title title = None →
  query_written (query_crossref title session w).1.
Proof.
  intros Hmiss.
  destruct (query_crossref_miss title session w Hmiss) as (entry & -> & ->).
  simpl. destruct (session (log w) title) as [exc|items].
  - left. by exists exc.
  - apply match_entry_written.
Qed.

Lemma author_name_nonempty (author : Work.author) : author_name author ≠ [].
Proof.
  unfold author_name. repeat case_match; try done; by apply truthy_true.
Qed.

Lemma query_written_shape info :
  query_written info →
  (Info.status info = Some (T "error") ∨ Info.status info = Some (T "no_match")
   ∨ Info.status info = Some (T "ok"))
  ∧ length (default [] (Info.authors info))
    = length (default [] (Info.authors_affiliations info))
  ∧ Forall (λ name, name ≠ []) (default [] (Info.authors info))
  ∧ (Info.status info = Some (T "ok") →
       ∃ s, Info.score info = Some s ∧ (float_0_6 <= s)%Q)
  ∧ (Info.status info ≠ Some (T "ok") → Info.authors info = None).
Proof.
  intros [(exc & ->)|[(s & -> & Hs)|(item & s & -> & Hs)]]; simpl.
  - split_and!; try done; auto.
  - split_and!; try done; auto.
  - split_and!; try done; auto.
    + by rewrite !length_fmap.
    + apply Forall_fmap, Forall_true. intros a. apply author_name_nonempty.
    + intros _. by exists s.
Qed.

(** X14. The entry that a live query writes has one of the statuses [error],
    [no_match] and [ok]; its author and affiliation lists have the same
    length and no author name is empty; an [ok] entry has a score of at
    least the float 0.6, and an entry of another status has no authors. *)
Theorem live_query_entry title session w :
  cache w !! normalize_title title = None →
  let info := (query_crossref title session w).1 in
  (Info.status info = Some (T "error") ∨ Info.status info = Some (T "no_match")
   ∨ Info.status info = Some (T "ok"))
  ∧ length (default [] (Info.authors info))
    = length (default [] (Info.authors_affiliations info))
  ∧ Forall (λ name, name ≠ []) (default [] (Info.authors info))
  ∧ (Info.status info = Some (T "ok") →
       ∃ s, Info.score info = Some s ∧ (float_0_6 <= s)%Q)
  ∧ (Info.status info ≠ Some (T "ok") → Info.authors info = None).
Proof.
  intros Hmiss. apply query_written_shape.
  by apply query_crossref_miss_written.
Qed.

(** ** Runs and the cache *)










(** ** The filter on enriched records *)

Lemma author_names_enrich r info :
  author_names (enrich r info) = final_authors (enrich r info).
Proof.
  unfold author_names.
  destruct (final_authors (enrich r info)) as [|a l] eqn:Hfinal; [|done].
  simpl. rewrite enrich_scholar.
  destruct (enrich_merge r info) as (Hc & Hs & _).
  destruct (default [] (Info.authors info)) as [|b l'] eqn:Hauth.
  - destruct (authors_list r) as [|c l''] eqn:Hlist; [done|].
    destruct (Hs eq_refl) as [Hf _]; [done|]. congruence.
  - destruct Hc as [Hf _]; [done|]. congruence.
Qed.

(** X18. For a record that [enrich_records] builds, the names that
    [filter_self_citations] looks at are the final authors: the fallback to
    the scraped list is never taken with a different result. *)
Theorem filter_tests_final_authors r info :
  author_names (enrich r info) = final_authors (enrich r info)
  ∧ (is_self_citation (enrich r info) = true
     ↔ ∃ a, a ∈ final_authors (enrich r info)
          ∧ normalize_author_name a ∈ ORIGINAL_AUTHORS).
Proof.
  split; [apply author_names_enrich|].
  rewrite is_self_citation_spec, author_names_enrich. apply Exists_exists.
Qed.

(** X19. Every name list that the test of [collect_citations.py] excludes is
    excluded by [should_exclude_self_citation] of the OpenAlex script: its
    denylist holds every variant of the other one. *)
Theorem openalex_filter_at_least_as_strict e :
  ORIGINAL_AUTHORS ⊆ openalex_citations.ORIGINAL_AUTHORS
  ∧ (is_self_citation e = true →
     openalex_citations.should_exclude_self_citation (author_names e) = true).
Proof.
  assert (ORIGINAL_AUTHORS ⊆ openalex_citations.ORIGINAL_AUTHORS) as Hsub.
  { unfold ORIGINAL_AUTHORS, openalex_citations.ORIGINAL_AUTHORS.
    intros x. rewrite !elem_of_union, !elem_of_singleton. tauto. }
  split; [done|]. rewrite is_self_citation_spec.
  unfold openalex_citations.should_exclude_self_citation.
  rewrite bool_decide_eq_true. intros Hex.
  apply intersects_denylist; [apply openalex_ORIGINAL_AUTHORS_nonempty_names|].
  eapply Exists_impl; [exact Hex|]. intros a Ha. by apply Hsub.
Qed.

(** ** More on deduplication *)

Lemma dedup_scope_keys (records acc : list ScholarRecord) (seen : gset text) :
  seen = list_to_set (record_key <$> acc) →
  list_to_set (record_key <$> (dedup_scope records (acc, seen)).1)
  = seen ∪ (list_to_set (record_key <$> records) : gset text)
  ∧ (dedup_scope records (acc, seen)).2
    = list_to_set (record_key <$> (dedup_scope records (acc, seen)).1)
  ∧ acc `prefix_of` (dedup_scope records (acc, seen)).1.
Proof.
  revert acc seen. induction records as [|r rest IH]; intros acc seen Hseen.
  - simpl. split_and!; [set_solver|done|done].
  - simpl. case_bool_decide as Hin.
    + destruct (IH acc seen Hseen) as (Hkeys & Hseen' & Hpre).
      split_and!; [|done|done]. rewrite Hkeys. csimpl. set_solver.
    + destruct (IH (acc ++ [r]) (seen ∪ {[record_key r]}))
        as (Hkeys & Hseen' & Hpre).
      { rewrite fmap_app, list_to_set_app_L, Hseen. set_solver. }
      split_and!; [|done|].
      * rewrite Hkeys. csimpl. set_solver.
      * etrans; [|exact Hpre]. by apply prefix_app_r.
Qed.

(** X20. No key is lost and none is counted twice: the combined records have the
    keys of the fetched records, and there are as many combined records as
    different keys. *)
Theorem combined_records_keys (years : list Z)
    (scraped_by_year : gmap (option Z) (list ScholarRecord)) :
  let fetched :=
    mjoin ((λ scope, default [] (scraped_by_year !! scope))
           <$> scrape_targets years) in
  let combined := combined_records years scraped_by_year in
  (list_to_set (record_key <$> combined) : gset text)
  = list_to_set (record_key <$> fetched)
  ∧ length combined
    = size (list_to_set (record_key <$> fetched) : gset text).
Proof.
  intros fetched combined.
  assert ((list_to_set (record_key <$> combined) : gset text)
          = list_to_set (record_key <$> fetched)) as Hkeys.
  { unfold combined. rewrite combined_records_flat. fold fetched.
    destruct (dedup_scope_keys fetched [] ∅) as (Hk & _); [done|].
    rewrite Hk. apply (left_id_L ∅ (∪)). }
  split; [done|]. rewrite <- Hkeys.
  rewrite size_list_to_set; [by rewrite length_fmap|].
  apply filter_key_length_NoDup. intros key. unfold combined.
  rewrite combined_records_flat, dedup_scope_first; [|done|constructor].
  rewrite length_take. lia.
Qed.

(** X21. The fallback scope only adds records at the end: the combined records
    without the fallback results are a prefix of the combined records. *)
Theorem fallback_only_appends (years : list Z)
    (scraped_by_year : gmap (option Z) (list ScholarRecord)) :
  combined_records years (delete None scraped_by_year)
  `prefix_of` combined_records years scraped_by_year.
Proof.
  unfold combined_records. rewrite lookup_delete_eq. simpl.
  assert (foldl (λ st year,
             dedup_scope (default [] (delete None scraped_by_year !! Some year))
               st) ([], ∅) years
          = foldl (λ st year,
             dedup_scope (default [] (scraped_by_year !! Some year)) st)
             ([], ∅) years) as ->.
  { generalize (([], ∅) : list ScholarRecord * gset text).
    induction years as [|y years IH]; intros st; simpl; [done|].
    rewrite lookup_delete_ne by done. apply IH. }
  assert (∀ (st : list ScholarRecord * gset text) records,
            st.2 = list_to_set (record_key <$> st.1) →
            (dedup_scope records st).2
            = list_to_set (record_key <$> (dedup_scope records st).1)
            ∧ st.1 `prefix_of` (dedup_scope records st).1) as Hstep.
  { intros [acc seen] records Hst. simpl in Hst.
    by destruct (dedup_scope_keys records acc seen Hst) as (_ & ? & ?). }
  assert ((foldl (λ st year,
             dedup_scope (default [] (scraped_by_year !! Some year)) st)
             ([], ∅) years).2
          = list_to_set (record_key <$>
              (foldl (λ st year,
                 dedup_scope (default [] (scraped_by_year !! Some year)) st)
                 ([], ∅) years).1)) as Hinv.
  { assert ((([], ∅) : list ScholarRecord * gset text).2
            = list_to_set (record_key <$>
                (([], ∅) : list ScholarRecord * gset text).1)) as Hinit
      by done.
    revert Hinit. generalize (([], ∅) : list ScholarRecord * gset text).
    induction years as [|y years IH]; intros st Hst; simpl; [done|].
    apply IH. by apply Hstep. }
  by apply Hstep.
Qed.

(** ** The pipeline of [main] *)





End RunFacts.

Section OpenAlexFacts.
Context `{PyRuntime}.
Import openalex_pipeline.

(** ** Authors of a citing work *)

Lemma extract_step_aligned (acc : list text * list (list text))
    (authorship : Authorship) :
  length acc.1 = length acc.2 →
  Forall (λ name, name ≠ [] ∧ whitespace_normal name) acc.1 →
  Forall (Forall (λ aff, aff ≠ [])) acc.2 →
  let acc' := extract_step acc authorship in
  length acc'.1 = length acc'.2
  ∧ Forall (λ name, name ≠ [] ∧ whitespace_normal name) acc'.1
  ∧ Forall (Forall (λ aff, aff ≠ [])) acc'.2
  ∧ length acc'.1 ≤ S (length acc.1).
Proof.
  intros Hlen Hnames Haffs. unfold extract_step.
  destruct (truthy (normalize_whitespace (author_display_name authorship)))
    eqn:Hname; simpl; [|split_and!; try done; lia].
  rewrite !length_app. simpl. split_and!; [lia| | |lia].
  - apply Forall_app. split; [done|]. constructor; [|done].
    split; [by apply truthy_true|apply normalize_whitespace_shape].
  - apply Forall_app. split; [done|]. constructor; [|done].
    apply Forall_forall. intros aff [Haff _]%list_elem_of_filter.
    by apply truthy_true, Is_true_true.
Qed.

(** X23. [extract_authors] gives as many affiliation lists as authors, no empty
    author name and no empty affiliation, names of the normal whitespace
    shape, and at most one author per authorship. *)
Theorem extract_authors_aligned (record : WorkRecord) :
  let '(authors, affiliations) := extract_authors record in
  length authors = length affiliations
  ∧ Forall (λ name, name ≠ [] ∧ whitespace_normal name) authors
  ∧ Forall (Forall (λ aff, aff ≠ [])) affiliations
  ∧ length authors ≤ length (authorships record).
Proof.
  unfold extract_authors.
  assert (∀ (l : list Authorship) (acc : list text * list (list text)),
    length acc.1 = length acc.2 →
    Forall (λ name, name ≠ [] ∧ whitespace_normal name) acc.1 →
    Forall (Forall (λ aff, aff ≠ [])) acc.2 →
    let acc' := foldl extract_step acc l in
    length acc'.1 = length acc'.2
    ∧ Forall (λ name, name ≠ [] ∧ whitespace_normal name) acc'.1
    ∧ Forall (Forall (λ aff, aff ≠ [])) acc'.2
    ∧ length acc'.1 ≤ length acc.1 + length l) as Hfold.
  { induction l as [|a l IH]; intros acc Hlen Hn Ha; simpl.
    - split_and!; try done; lia.
    - destruct (extract_step_aligned acc a Hlen Hn Ha) as (H1 & H2 & H3 & H4).
      destruct (IH _ H1 H2 H3) as (?&?&?&?). split_and!; try done. lia. }
  specialize (Hfold (authorships record) ([], []) eq_refl
                (Forall_nil_2 _) (Forall_nil_2 _)).
  by destruct (foldl extract_step ([], []) (authorships record)).
Qed.

(** ** The filter loop of the OpenAlex script *)

(** X24. [main] keeps, in their order, exactly the citing works none of whose
    extracted author names normalizes to a member of the denylist; a work
    without a named author is kept. *)
Theorem filtered_records_exact (citing_records : list WorkRecord) :
  filtered_records citing_records `sublist_of` citing_records
  ∧ (∀ record, record ∈ filtered_records citing_records
       ↔ record ∈ citing_records
         ∧ ∀ a, a ∈ (extract_authors record).1 →
             normalize_author_name a ∉ openalex_citations.ORIGINAL_AUTHORS)
  ∧ (∀ record, record ∈ citing_records →
       (extract_authors record).1 = [] →
       record ∈ filtered_records citing_records).
Proof.
  assert (∀ record,
    openalex_citations.should_exclude_self_citation (extract_authors record).1
    = true
    ↔ Exists (λ a, normalize_author_name a
                   ∈ openalex_citations.ORIGINAL_AUTHORS)
        (extract_authors record).1) as Hspec.
  { intros record. unfold openalex_citations.should_exclude_self_citation.
    rewrite bool_decide_eq_true.
    apply intersects_denylist, openalex_ORIGINAL_AUTHORS_nonempty_names. }
  assert (∀ record, record ∈ filtered_records citing_records
       ↔ record ∈ citing_records
         ∧ ∀ a, a ∈ (extract_authors record).1 →
             normalize_author_name a ∉ openalex_citations.ORIGINAL_AUTHORS)
    as Hmem.
  { intros record. induction citing_records as [|x l IH]; simpl.
    - split; [by intros ?%not_elem_of_nil|by intros [?%not_elem_of_nil _]].
    - destruct (openalex_citations.should_exclude_self_citation
                  (extract_authors x).1) eqn:Hx.
      + rewrite IH, elem_of_cons. split; [by intros [? ?]; auto|].
        intros [[->|?] Hall]; [|done]. exfalso.
        apply Hspec, Exists_exists in Hx as (a & Ha & Hdeny).
        by apply (Hall a).
      + rewrite !elem_of_cons, IH. split; [|by intros [[?|?] ?]; auto].
        intros [->|[? ?]]; [|by auto]. split; [by left|].
        intros a Ha Hdeny. apply not_true_iff_false in Hx. apply Hx, Hspec.
        apply Exists_exists. by exists a. }
  split_and!; [|done|].
  - clear Hmem. induction citing_records as [|x l IH]; simpl; [done|].
    destruct (openalex_citations.should_exclude_self_citation _);
      [by apply sublist_cons|by apply sublist_skip].
  - intros record Hin Hnone. apply Hmem. split; [done|].
    rewrite Hnone. by intros a ?%not_elem_of_nil.
Qed.

(** ** Cursor pagination *)

Lemma fetch_pages_chain (fuel : nat) (api : WorksApi)
    (work_id cursor : text) (citing asked : list text)
    (records0 records : list WorkRecord) (asked0 asked' : list text) :
  fetch_pages fuel api work_id cursor records0 asked0 = Got (records, asked') →
  ∃ new,
    asked' = asked0 ++ new
    ∧ head new = Some cursor
    ∧ length new ≤ fuel
    ∧ (∀ i c, new !! i = Some c →
         api work_id c ≠ HttpError
         ∧ new !! S i = next_of (api work_id c))
    ∧ records = records0 ++ mjoin ((λ c, results_of (api work_id c)) <$> new).
Proof.
  revert cursor records0 asked0.
  induction fuel as [|fuel IH]; intros cursor records0 asked0;
    cbn [fetch_pages]; [done|].
  destruct (api work_id cursor) as [|results next] eqn:Hpage; [done|].
  assert (Got (records0 ++ results, asked0 ++ [cursor])
          = Got (records, asked') →
          next_of (api work_id cursor) = None →
          ∃ new,
            asked' = asked0 ++ new
            ∧ head new = Some cursor
            ∧ length new ≤ S fuel
            ∧ (∀ i c, new !! i = Some c →
                 api work_id c ≠ HttpError
                 ∧ new !! S i = next_of (api work_id c))
            ∧ records
              = records0 ++ mjoin ((λ c, results_of (api work_id c)) <$> new))
    as Hlast.
  { intros [= <- <-] Hnext. exists [cursor]. split_and!; try done.
    - simpl. lia.
    - intros [|i] c Hc; [|by destruct i]. injection Hc as <-.
      rewrite Hpage in *. by rewrite Hnext.
    - rewrite list_fmap_singleton. change (mjoin [?x]) with (x ++ []).
      by rewrite Hpage, app_nil_r. }
  destruct next as [[|c cs]|];
    [intros ?; apply Hlast; [done|by rewrite Hpage]|
    |intros ?; apply Hlast; [done|by rewrite Hpage]].
  intros (new & -> & Hhead & Hlen & Hchain & ->)%IH.
  exists (cursor :: new). split_and!.
  - by rewrite <- app_assoc.
  - done.
  - simpl. lia.
  - intros [|i] x Hx.
    + injection Hx as <-. rewrite Hpage. split; [done|]. simpl.
      by destruct new.
    + by apply Hchain.
  - rewrite fmap_cons. change (mjoin (?x :: ?l)) with (x ++ mjoin l).
    by rewrite Hpage, <- app_assoc.
Qed.

(** X25. When [fetch_citing_works] returns, the cursors it asked for start with
    the star, each further one is the non-empty [next_cursor] of the page
    before, the last page has none, no page failed, and the records are the
    results of these pages in order. *)
Theorem fetch_citing_works_chain (fuel : nat) (api : WorksApi)
    (work_id : text) (records : list WorkRecord) (asked : list text) :
  fetch_citing_works fuel api work_id = Got (records, asked) →
  head asked = Some (T "*")
  ∧ length asked ≤ fuel
  ∧ (∀ i c, asked !! i = Some c →
       api work_id c ≠ HttpError
       ∧ asked !! S i = next_of (api work_id c))
  ∧ records = mjoin ((λ c, results_of (api work_id c)) <$> asked).
Proof.
  unfold fetch_citing_works.
  intros (new & -> & Hhead & Hlen & Hchain & ->)%fetch_pages_chain; [|done..].
  by split_and!.
Qed.

Lemma fetch_pages_fails (api : WorksApi) (work_id : text)
    (asked : list text) (cursor : text) (fuel : nat) (start : text)
    (records0 : list WorkRecord) (asked0 : list text) :
  head (asked ++ [cursor]) = Some start →
  (∀ i c, asked !! i = Some c →
     ∃ results, api work_id c = PageOf results ((asked ++ [cursor]) !! S i)) →
  Forall (λ c, c ≠ []) (asked ++ [cursor]) →
  api work_id cursor = HttpError →
  length asked < fuel →
  fetch_pages fuel api work_id start records0 asked0 = Failed.
Proof.
  revert fuel start records0 asked0. induction asked as [|c asked IH];
    intros fuel start records0 asked0 Hhead Hchain Hne Hfail Hfuel;
    (destruct fuel as [|fuel]; [simpl in Hfuel; lia|]); cbn [fetch_pages].
  - simpl in Hhead. injection Hhead as <-. by rewrite Hfail.
  - simpl in Hhead. injection Hhead as <-.
    destruct (Hchain 0 c eq_refl) as (results & Hpage). rewrite Hpage.
    assert (((c :: asked) ++ [cursor]) !! 1 = head (asked ++ [cursor])) as ->
      by (simpl; by destruct (asked ++ [cursor])).
    apply Forall_cons in Hne as [_ Hne].
    destruct (head (asked ++ [cursor])) as [next|] eqn:Hnext;
      [|by destruct asked].
    assert (next ≠ []) as Hnonempty.
    { rewrite Forall_forall in Hne. apply Hne.
      apply list_elem_of_lookup. exists 0. by rewrite <- head_lookup. }
    destruct next as [|x next]; [done|].
    apply IH; try done.
    + intros i c' Hc'. apply (Hchain (S i) c' Hc').
    + simpl in Hfuel. lia.
Qed.

(** X26. A failing page makes the whole fetch fail, however many pages came
    before: no partial result is returned. *)
Theorem fetch_citing_works_fails (fuel : nat) (api : WorksApi)
    (work_id : text) (asked : list text) (cursor : text) :
  head (asked ++ [cursor]) = Some (T "*") →
  (∀ i c, asked !! i = Some c →
     ∃ results, api work_id c = PageOf results ((asked ++ [cursor]) !! S i)) →
  Forall (λ c, c ≠ []) (asked ++ [cursor]) →
  api work_id cursor = HttpError →
  length asked < fuel →
  fetch_citing_works fuel api work_id = Failed.
Proof. intros. unfold fetch_citing_works. by eapply fetch_pages_fails. Qed.

(** ** [main] of the OpenAlex script *)



End OpenAlexFacts.

Section RowFacts.
Context `{PyRuntime} `{PyFormat}.
Implicit Types (r : ScholarRecord) (e : EnrichedRecord) (info : Info.t).

(** ** The order of texts *)

Lemma text_le_refl (a : text) : text_le a a.
Proof.
  unfold text_le. induction a as [|x a IH]; simpl; [done|].
  by rewrite N.ltb_irrefl.
Qed.

Lemma text_le_total : Total text_le.
Proof.
  intros a. unfold text_le. induction a as [|x a IH]; intros [|y b]; simpl;
    auto.
  destruct (N.ltb_spec x y), (N.ltb_spec y x); auto; try lia.
Qed.

Lemma text_le_trans : Transitive text_le.
Proof.
  intros a. unfold text_le.
  induction a as [|x a IH]; intros [|y b] [|z c]; simpl; try done.
  destruct (N.ltb_spec x y), (N.ltb_spec y x), (N.ltb_spec y z),
    (N.ltb_spec z y), (N.ltb_spec x z), (N.ltb_spec z x);
    try done; try lia. apply IH.
Qed.

Lemma text_le_antisym : AntiSymm (=) text_le.
Proof.
  intros a. unfold text_le.
  induction a as [|x a IH]; intros [|y b]; simpl; try done.
  destruct (N.ltb_spec x y), (N.ltb_spec y x); try done; try lia.
  intros Hab Hba. f_equal; [lia|by apply IH].
Qed.

#[local] Existing Instances text_le_total text_le_trans text_le_antisym.

Lemma sorted_set_elem_of (l : list text) (x : text) :
  x ∈ sorted_set l ↔ x ∈ l.
Proof.
  unfold sorted_set. rewrite merge_sort_Permutation. apply elem_of_remove_dups.
Qed.

Lemma sorted_set_ext (l1 l2 : list text) :
  (∀ x, x ∈ l1 ↔ x ∈ l2) → sorted_set l1 = sorted_set l2.
Proof.
  intros Hsame. unfold sorted_set.
  apply (Sorted_unique text_le); try apply Sorted_merge_sort; try apply _.
  rewrite !merge_sort_Permutation.
  apply NoDup_Permutation; try apply NoDup_remove_dups.
  intros x. by rewrite !elem_of_remove_dups.
Qed.

(** ** Author entries *)

(** X28. The entry of an author depends on the set of the affiliations only, not
    on their order or on repetitions. *)
Theorem format_author_entry_set (name : text) (affs1 affs2 : list text) :
  (∀ aff, aff ∈ affs1 ↔ aff ∈ affs2) →
  format_author_entry name affs1 = format_author_entry name affs2.
Proof.
  intros Hsame. unfold format_author_entry.
  rewrite (sorted_set_ext
             (normalize_whitespace <$> filter (λ aff, truthy aff) affs1)
             (normalize_whitespace <$> filter (λ aff, truthy aff) affs2));
    [done|].
  intros x. rewrite !list_elem_of_fmap.
  split; intros (a & -> & [? Ha]%list_elem_of_filter); exists a;
    (split; [done|]); apply list_elem_of_filter; (split; [done|]);
    by apply Hsame.
Qed.

(** X29. For a record that [enrich_records] builds, the loop over the pairs of
    authors and affiliations loses no author: there is one entry for each
    final author. *)
Theorem author_entries_enriched r info :
  length (author_entries (enrich r info))
  = length (final_authors (enrich r info)).
Proof.
  unfold author_entries. rewrite length_fmap, length_zip.
  rewrite enrich_final_lengths. lia.
Qed.

Lemma join_nonempty (sep first : text) (rest : list text) :
  first ≠ [] → join sep (first :: rest) ≠ [].
Proof. intros Hfirst. destruct first; [done|]. by destruct rest. Qed.

Lemma format_author_entry_nonempty (name : text) (affs : list text) :
  format_author_entry name affs ≠ [].
Proof.
  unfold format_author_entry.
  assert ((if truthy name then name else MISSING) ≠ []) as Hname
    by (by destruct name).
  destruct (if truthy name then name else MISSING); [done|].
  by case_match.
Qed.

(** Two columns of a row are never empty: the source link and the column
    of authors with their affiliations. *)
Theorem row_never_blank (index : Z) e :
  row_link (record_to_output_row index e) ≠ []
  ∧ row_author_affiliations (record_to_output_row index e) ≠ [].
Proof.
  simpl. split.
  - unfold source_link. by repeat case_match.
  - destruct (author_entries e) as [|entry entries] eqn:Hentries; [done|].
    simpl truthy. cbv iota. apply join_nonempty.
    unfold author_entries in Hentries.
    destruct (zip (final_authors e) (final_author_affiliations e))
      as [|pair pairs]; [done|].
    injection Hentries as <- _. apply format_author_entry_nonempty.
Qed.

Lemma note_prefixes (s : text) :
  T "crossref_status=" ++ s ≠ T "missing_authors"
  ∧ T "crossref_status=" ++ s ≠ T "scholar_authors_may_be_truncated"
  ∧ T "author_source=" ++ s ≠ T "missing_authors"
  ∧ T "author_source=" ++ s ≠ T "scholar_authors_may_be_truncated"
  ∧ T "score=" ++ s ≠ T "missing_authors"
  ∧ T "score=" ++ s ≠ T "scholar_authors_may_be_truncated".
Proof. split_and!; intros Heq; by vm_compute in Heq. Qed.

(** The notes that are not one of the two fixed warnings. *)
Lemma notes_other e (x : text) :
  x ∈ (if decide (crossref_status e ≠ T "ok")
       then [T "crossref_status=" ++ crossref_status e] else [])
  ∨ x ∈ match crossref_score e with
        | Some score => [T "score=" ++ format_2f score]
        | None => []
        end
  ∨ x ∈ (if decide (author_source e ≠ T "crossref")
         then [T "author_source=" ++ author_source e] else []) →
  x ≠ T "missing_authors" ∧ x ≠ T "scholar_authors_may_be_truncated".
Proof.
  intros [Hx|[Hx|Hx]].
  - case_decide; [|by apply not_elem_of_nil in Hx].
    apply list_elem_of_singleton in Hx as ->.
    by destruct (note_prefixes (crossref_status e)) as (?&?&_).
  - destruct (crossref_score e) as [sc|]; [|by apply not_elem_of_nil in Hx].
    apply list_elem_of_singleton in Hx as ->.
    by destruct (note_prefixes (format_2f sc)) as (_&_&_&_&?&?).
  - case_decide; [|by apply not_elem_of_nil in Hx].
    apply list_elem_of_singleton in Hx as ->.
    by destruct (note_prefixes (author_source e)) as (_&_&?&?&_).
Qed.

Lemma notes_missing_authors e :
  T "missing_authors" ∈ notes e ↔ final_authors e = [].
Proof.
  unfold notes. rewrite !elem_of_app. split.
  - intros [Hx|[Hx|[Hx|[Hx|Hx]]]].
    + by destruct (notes_other e _ (or_introl Hx)).
    + by destruct (notes_other e _ (or_intror (or_introl Hx))).
    + destruct (final_authors e); [done|].
      simpl in Hx. by apply not_elem_of_nil in Hx.
    + by destruct (notes_other e _ (or_intror (or_intror Hx))).
    + destruct (_ && _); [|by apply not_elem_of_nil in Hx].
      apply list_elem_of_singleton in Hx. by vm_compute in Hx.
  - intros ->. right. right. left. by left.
Qed.

Lemma notes_truncated e :
  T "scholar_authors_may_be_truncated" ∈ notes e
  ↔ authors_truncated (scholar e) = true ∧ author_source e ≠ T "crossref".
Proof.
  unfold notes. rewrite !elem_of_app. split.
  - intros [Hx|[Hx|[Hx|[Hx|Hx]]]].
    + by destruct (notes_other e _ (or_introl Hx)).
    + by destruct (notes_other e _ (or_intror (or_introl Hx))).
    + destruct (truthy (final_authors e)); [by apply not_elem_of_nil in Hx|].
      apply list_elem_of_singleton in Hx. by vm_compute in Hx.
    + by destruct (notes_other e _ (or_intror (or_intror Hx))).
    + destruct (authors_truncated (scholar e)); simpl in Hx;
        [|by apply not_elem_of_nil in Hx].
      case_bool_decide; [done|by apply not_elem_of_nil in Hx].
  - intros [-> Hsrc]. do 4 right. simpl.
    rewrite bool_decide_true by done. by left.
Qed.

(** X30. The notes of a record that [enrich_records] builds: [missing_authors]
    is noted exactly when neither Crossref nor the scrape gave an author,
    and the warning about truncated authors exactly when the truncation
    flag is set and the authors are not those of Crossref. *)
Theorem notes_enriched r info :
  (T "missing_authors" ∈ notes (enrich r info)
   ↔ default [] (Info.authors info) = [] ∧ authors_list r = [])
  ∧ (T "scholar_authors_may_be_truncated" ∈ notes (enrich r info)
     ↔ authors_truncated r = true ∧ default [] (Info.authors info) = []).
Proof.
  rewrite notes_missing_authors, notes_truncated, enrich_scholar.
  destruct (enrich_merge r info) as (Hc & Hs & Hu).
  destruct (default [] (Info.authors info)) as [|a l] eqn:Hauth.
  - destruct (authors_list r) as [|b l'] eqn:Hlist.
    + destruct (Hu eq_refl eq_refl) as [-> ->].
      split; split; try done; intros [? ?]; (split; [done|]);
        try done; intros E; by vm_compute in E.
    + destruct (Hs eq_refl) as [-> ->]; [done|].
      split; split; try done; intros [? ?]; try done; (split; [done|]);
        try done; destruct (authors_truncated r); intros E;
        by vm_compute in E.
  - destruct Hc as [-> ->]; [done|].
    split; split; try done; by intros [? ?].
Qed.

End RowFacts.

(** * The further properties on sample data *)

Section MoreWitnesses.
Import Samples MoreSamples openalex_pipeline.
#[local] Existing Instance Latin1.runtime.
#[local] Existing Instance Latin1Digits.digits.
#[local] Existing Instance sample_format.
#[local] Existing Instance default_int_limit.

Example scrape_scope_sample :
  scrape_scope 5 site (Some 2020%Z)
  = Some ([{| title := T "Test Paper"; url := None;
              authors_raw := T "J Smith, K Lee - Journal, 2020 - pub";
              snippet := T "";
              raw_meta := T "J Smith, K Lee - Journal, 2020 - pub";
              year := Some 2020%Z; cluster_id := Some (T "c1");
              page_index := 0%Z;
              authors_list := [T "J Smith"; T "K Lee"];
              authors_truncated := false |};
           {| title := T "Another paper"; url := None;
              authors_raw := T "A Writer, ... - 1999"; snippet := T "";
              raw_meta := T "A Writer, ... - 1999";
              year := Some 1999%Z; cluster_id := None;
              page_index := 1%Z;
              authors_list := [T "A Writer"];
              authors_truncated := true |}],
          [0; 10]).
Proof. vm_compute. reflexivity. Qed.

Example openalex_main_sample :
  main false Missing 5 (Some (T "https://openalex.org/W0")) works_api
    good_disk
  = Finished (Holds [citing_work; self_citing_work]) [citing_work]
      [GetTarget; GetWorks (T "*"); GetWorks (T "c2")]
  ∧ main false (Holds [self_citing_work]) 0 None failing_api good_disk
    = Finished (Holds [self_citing_work]) [] []
  ∧ main true (Holds [citing_work]) 5 (Some (T "W0")) failing_api good_disk
    = Crashed (Holds [citing_work])
  ∧ main false (Holds [citing_work]) 0 None failing_api full_disk
    = Crashed Malformed
  ∧ main true Missing 5 (Some (T "W0")) works_api no_report_disk
    = Crashed (Holds [citing_work; self_citing_work]).
Proof. vm_compute. done. Qed.

(** The announced total: the largest run of digits of the summary line, and
    none when a run has more digits than [int] converts. *)
Example total_results_sample :
  total_results (Some (T "About 57 results (0.04 sec)")) = Some 57%Z
  ∧ total_results (Some (T "About 1,230 results")) = Some 230%Z
  ∧ total_results (Some (T "no number")) = None
  ∧ total_results (Some (T "About 57 results " ++ replicate 4301 49%N)) = None
  ∧ total_results (Some (T "About 57 results " ++ replicate 4300 48%N))
    = Some 57%Z.
Proof. vm_compute. done. Qed.

Example extract_authors_sample :
  extract_authors citing_work = ([T "Jane Doe"], [[T "MIT"]]).
Proof. vm_compute. reflexivity. Qed.


Lemma normalize_whitespace_idempotent_witness :
  isspace 160%N = true
  ∧ normalize_whitespace (normalize_whitespace (T "  a   b "))
    = normalize_whitespace (T "  a   b ").
Proof.
  split; [reflexivity|].
  apply (normalize_whitespace_idempotent (T "  a   b ")). reflexivity.
Defined.

Lemma normalized_chars_witness :
  (97%N ∈ normalize_title (T "A-b") → 97%N = 32%N ∨ isword 97%N = true)
  ∧ (97%N ∈ normalize_author_name (T "A-b")
     → 97%N = 32%N ∨ isword 97%N = true).
Proof. apply (normalized_chars (T "A-b") 97%N). Defined.



Lemma parse_authors_names_witness :
  T "K Lee" ∈ parse_authors (T "J Smith,  K Lee - Journal, 2020")
  ∧ T "K Lee" ≠ [] ∧ T "K Lee" ≠ ELLIPSIS ∧ T "K Lee" ≠ DOTS
  ∧ (44%N ∉ T "K Lee") ∧ (45%N ∉ T "K Lee")
  ∧ whitespace_normal (T "K Lee").
Proof.
  assert (T "K Lee" ∈ parse_authors (T "J Smith,  K Lee - Journal, 2020"))
    as Hin by (vm_compute; do 2 constructor).
  split; [exact Hin|].
  exact (parse_authors_names _ _ Hin).
Defined.

Lemma parse_authors_ignores_after_dash_witness :
  (45%N ∉ T "J Smith, K Lee ")
  ∧ parse_authors (T "J Smith, K Lee " ++ 45%N :: T " Journal - 2020")
    = parse_authors (T "J Smith, K Lee ").
Proof.
  assert (45%N ∉ T "J Smith, K Lee ") as Hdash
    by (apply (bool_decide_unpack _); vm_compute; exact I).
  split; [exact Hdash|].
  exact (parse_authors_ignores_after_dash _ _ Hdash).
Defined.

Lemma parse_authors_join_witness :
  isspace 32%N = true ∧ isspace 160%N = true
  ∧ parse_authors (join (T ", ") [T "J Smith"; T "K Lee"])
    = [T "J Smith"; T "K Lee"].
Proof.
  split_and!; [done|done|].
  apply parse_authors_join; [done|done|].
  assert (∀ n, normalize_whitespace n = n → whitespace_normal n) as Hshape.
  { intros n <-. apply normalize_whitespace_shape. }
  apply Forall_cons_2; [|apply Forall_cons_2; [|apply Forall_nil_2]];
    (cbv beta; split_and!;
     [discriminate|discriminate|discriminate
     |apply (bool_decide_unpack _); vm_compute; exact I
     |apply (bool_decide_unpack _); vm_compute; exact I
     |apply Hshape; vm_compute; reflexivity]).
Defined.

Lemma extract_year_leftmost_witness :
  match extract_year (T "J Smith - Journal 12, 2020 - 1999") with
  | Some y =>
      (1900 ≤ y ≤ 2199)%Z
      ∧ ∃ k, year_at (drop k (T "J Smith - Journal 12, 2020 - 1999")) = Some y
             ∧ ∀ j, j < k
                 → year_at (drop j (T "J Smith - Journal 12, 2020 - 1999"))
                   = None
  | None => ∀ k, year_at (drop k (T "J Smith - Journal 12, 2020 - 1999")) = None
  end.
Proof. apply (extract_year_leftmost (T "J Smith - Journal 12, 2020 - 1999")). Defined.

Lemma fetch_page_entries_records_witness :
  length (fetch_page_entries first_page 0).1 ≤ length (entries first_page)
  ∧ Forall (λ r,
      authors_raw r = raw_meta r
      ∧ page_index r = Z.of_nat (0 / 10)
      ∧ whitespace_normal (title r)
      ∧ whitespace_normal (snippet r)
      ∧ (∀ y, year r = Some y → (1900 ≤ y ≤ 2199)%Z)
      ∧ Forall (λ name, name ≠ [] ∧ (44%N ∉ name) ∧ (45%N ∉ name))
          (authors_list r))
    (fetch_page_entries first_page 0).1.
Proof. apply (fetch_page_entries_records first_page 0). Defined.

Lemma scrape_scope_pages_witness :
  let result := default ([], []) (scrape_scope 5 site None) in
  scrape_scope 5 site None = Some (result.1, result.2)
  ∧ ∃ k, 0 < k ≤ 5
      ∧ result.2 = (λ i, 10 * i) <$> seq 0 k
      ∧ result.1
        = mjoin ((λ start, (fetch_page_entries (site None start) start).1)
                 <$> result.2).
Proof.
  intros result.
  assert (scrape_scope 5 site None = Some (result.1, result.2)) as Hrun
    by (vm_compute; reflexivity).
  split; [exact Hrun|]. exact (scrape_scope_pages _ _ _ _ _ Hrun).
Defined.

Lemma scrape_scope_bounded_witness :
  total_results (summary (site None 0)) = Some 12%Z
  ∧ (0 < 12)%Z ∧ (12 ≤ 10 * Z.of_nat 2)%Z
  ∧ ∃ collected asked,
      scrape_scope 2 site None = Some (collected, asked)
      ∧ length asked ≤ 2
      ∧ Forall (λ start, (Z.of_nat start < 12)%Z) asked.
Proof.
  split_and!; [vm_compute; reflexivity|lia|lia|].
  apply (scrape_scope_bounded site None 12%Z 2);
    [vm_compute; reflexivity|lia|lia].
Defined.

Lemma scrape_scope_ends_at_empty_page_witness :
  (fetch_page_entries (quiet_site None (10 * 1)) (10 * 1)).1 = []
  ∧ 1 < 2
  ∧ ∃ collected asked,
      scrape_scope 2 quiet_site None = Some (collected, asked)
      ∧ length asked ≤ 1 + 1.
Proof.
  split_and!; [vm_compute; reflexivity|lia|].
  apply (scrape_scope_ends_at_empty_page quiet_site None 1 2);
    [vm_compute; reflexivity|lia].
Defined.

Lemma live_query_entry_witness :
  cache empty_world !! normalize_title (T "Test Paper") = None
  ∧ let info := (query_crossref (T "Test Paper") crossref empty_world).1 in
    (Info.status info = Some (T "error")
     ∨ Info.status info = Some (T "no_match")
     ∨ Info.status info = Some (T "ok"))
    ∧ length (default [] (Info.authors info))
      = length (default [] (Info.authors_affiliations info))
    ∧ Forall (λ name, name ≠ []) (default [] (Info.authors info))
    ∧ (Info.status info = Some (T "ok") →
         ∃ s, Info.score info = Some s ∧ (float_0_6 <= s)%Q)
    ∧ (Info.status info ≠ Some (T "ok") → Info.authors info = None).
Proof.
  split; [vm_compute; reflexivity|].
  apply (live_query_entry (T "Test Paper") crossref empty_world).
  vm_compute. reflexivity.
Defined.




Lemma openalex_filter_at_least_as_strict_witness :
  is_self_citation (enrich own_paper Info.empty) = true
  ∧ openalex_citations.should_exclude_self_citation
      (author_names (enrich own_paper Info.empty)) = true.
Proof.
  assert (is_self_citation (enrich own_paper Info.empty) = true) as Hself
    by (vm_compute; reflexivity).
  split; [exact Hself|].
  by apply (openalex_filter_at_least_as_strict (enrich own_paper Info.empty)).
Defined.


Lemma filtered_records_exact_witness :
  citing_work ∈ [self_citing_work; citing_work]
  ∧ (citing_work ∈ filtered_records [self_citing_work; citing_work]
     ↔ citing_work ∈ [self_citing_work; citing_work]
       ∧ ∀ a, a ∈ (extract_authors citing_work).1 →
           normalize_author_name a ∉ openalex_citations.ORIGINAL_AUTHORS).
Proof.
  split; [do 2 constructor|].
  apply (filtered_records_exact [self_citing_work; citing_work]).
Defined.

Lemma fetch_citing_works_chain_witness :
  let result := [citing_work; self_citing_work] in
  let asked := [T "*"; T "c2"] in
  fetch_citing_works 5 works_api (T "W0") = Got (result, asked)
  ∧ head asked = Some (T "*")
  ∧ length asked ≤ 5
  ∧ (∀ i c, asked !! i = Some c →
       works_api (T "W0") c ≠ HttpError
       ∧ asked !! S i = next_of (works_api (T "W0") c))
  ∧ result = mjoin ((λ c, results_of (works_api (T "W0") c)) <$> asked).
Proof.
  intros result asked.
  assert (fetch_citing_works 5 works_api (T "W0") = Got (result, asked))
    as Hrun by (vm_compute; reflexivity).
  split; [exact Hrun|]. exact (fetch_citing_works_chain _ _ _ _ _ Hrun).
Defined.

Lemma fetch_citing_works_fails_witness :
  head ([T "*"] ++ [T "c2"]) = Some (T "*")
  ∧ Forall (λ c : text, c ≠ []) ([T "*"] ++ [T "c2"])
  ∧ failing_api (T "W0") (T "c2") = HttpError
  ∧ length [T "*"] < 5
  ∧ fetch_citing_works 5 failing_api (T "W0") = Failed.
Proof.
  split_and!; [done|by repeat constructor|vm_compute; reflexivity|simpl; lia|].
  apply (fetch_citing_works_fails 5 failing_api (T "W0") [T "*"] (T "c2")).
  - done.
  - intros [|i] c Hc; [|by destruct i]. injection Hc as <-.
    exists [citing_work]. vm_compute. reflexivity.
  - by repeat constructor.
  - vm_compute. reflexivity.
  - simpl. lia.
Defined.

Lemma format_author_entry_set_witness :
  (∀ aff, aff ∈ [T "MIT"; T "Stanford"; T "MIT"]
          ↔ aff ∈ [T "Stanford"; T "MIT"])
  ∧ format_author_entry (T "Jane Doe") [T "MIT"; T "Stanford"; T "MIT"]
    = format_author_entry (T "Jane Doe") [T "Stanford"; T "MIT"].
Proof.
  assert (∀ aff, aff ∈ [T "MIT"; T "Stanford"; T "MIT"]
                 ↔ aff ∈ [T "Stanford"; T "MIT"]) as Hsame.
  { intros aff. rewrite !elem_of_cons, !elem_of_nil. tauto. }
  split; [exact Hsame|].
  exact (format_author_entry_set _ _ _ Hsame).
Defined.

Example format_author_entry_sample :
  format_author_entry (T "") [T "MIT"; T " Stanford  University "; T "MIT"]
  = MISSING ++ T " (MIT; Stanford University)".
Proof. vm_compute. reflexivity. Qed.

End MoreWitnesses.
